(** * spotify-my-slack: the worker's per-user update cycle

    A shallow embedding of [backend/worker.py] and of the part of
    [backend/utils/slack.py] it relies on.

    - Python [str] values are sequences of Unicode code points ([pystr]),
      so that [len], slicing and [strip] count what Python counts.
    - Points in time ([datetime]) and durations ([timedelta]) are integers
      in microseconds, the resolution of [datetime]; a point in time
      counts from 1970-01-01T00:00:00 UTC.  The clock is taken to be well
      inside the range of [datetime]; the retry-after hint of the provider
      is arbitrary, and the sum of the clock and the hint is checked
      against the ranges of [timedelta] and [datetime] as Python does.
    - The interpreter allows a bounded depth of nested calls.  The first
      argument of [_update_user] is the number of nested calls of
      [_update_user] that are still allowed; the call beyond it raises
      [RecursionError].
    - The coroutines are programs over a signature of effects ([Eff]):
      every [await] on a collaborator, every read of the clock and every
      access to the module-level [UPDATE_THRESHOLD] is one operation.  A
      program is run against an environment ([Env]) that scripts the
      collaborators, either alone ([run]) or interleaved with other
      coroutines at their [await] points ([resume_nth]).
    - Logging has no effect on what is proved and is left out; so are the
      transport and storage exceptions that [_throttled_update_user]
      catches around a whole update. *)

From Stdlib Require Import ZArith NArith Ascii String Lia.
From stdpp Require Import base option list gmap.

Local Open Scope Z_scope.

(** ** Python strings *)

Definition pystr : Type := list N.

(** An ASCII literal as a Python string. *)
Definition str (s : string) : pystr := map N_of_ascii (list_ascii_of_string s).

(** U+2026 HORIZONTAL ELLIPSIS, the one character of the literal that
    follows the truncated text. *)
Definition ellipsis : pystr := [8230%N].

(** [str.isspace] on one code point: the whitespace table of CPython. *)
Definition isspace (c : N) : bool :=
  ((9 <=? c) && (c <=? 13) || (28 <=? c) && (c <=? 32)
   || (c =? 133) || (c =? 160) || (c =? 5760)
   || (8192 <=? c) && (c <=? 8202)
   || (c =? 8232) || (c =? 8233) || (c =? 8239) || (c =? 8287)
   || (c =? 12288))%N.

Fixpoint lstrip (s : pystr) : pystr :=
  match s with
  | c :: s' => if isspace c then lstrip s' else s
  | [] => []
  end.

Definition rstrip (s : pystr) : pystr := rev (lstrip (rev s)).

(** [s.strip()]: whitespace is removed at both ends. *)
Definition strip (s : pystr) : pystr := rstrip (lstrip s).

(** [sep.join(parts)] *)
Fixpoint join (sep : pystr) (parts : list pystr) : pystr :=
  match parts with
  | [] => []
  | [p] => p
  | p :: rest => p ++ sep ++ join sep rest
  end.

(** Truth value of a string: the empty string is false. *)
Definition truthy (s : pystr) : bool :=
  match s with [] => false | _ :: _ => true end.

(** [x or ""] for an optional string [x]. *)
Definition or_empty (x : option pystr) : pystr :=
  match x with
  | Some s => if truthy s then s else str ""
  | None => str ""
  end.

(** ** Time *)

Definition seconds (n : Z) : Z := n * 1000000.
Definition minutes (n : Z) : Z := seconds (60 * n).

(** [datetime.min] and [datetime.max]: the first microsecond of the year 1
    and the last one of the year 9999. *)
Definition datetime_min : Z := -62135596800000000.
Definition datetime_max : Z := 253402300799999999.

(** [timedelta(seconds=s)] for an integer [s]: [None] stands for the
    [OverflowError] of a duration of more than 999999999 days. *)
Definition timedelta_seconds (s : Z) : option Z :=
  if Z.abs (s / 86400) <=? 999999999 then Some (seconds s) else None.

(** [t + d] for a datetime [t] and a timedelta [d]: [None] stands for the
    [OverflowError] of a date out of range. *)
Definition datetime_add (t d : Z) : option Z :=
  if (datetime_min <=? t + d) && (t + d <=? datetime_max)
  then Some (t + d) else None.

(** ** Data of the collaborators *)

Record Artist := { artist_name : pystr }.

Record TrackItem := { name : pystr; artists : list Artist }.

Record PlayerData := { item : option TrackItem; is_playing : bool }.

Inductive GrantType := REFRESH_TOKEN.

Record TokenExchangeData := {
  expires_in : Z;
  access_token : pystr;
  refresh_token : option pystr
}.

(** [SpotifyApiError]: the retry-after hint in seconds and the decoded
    JSON body of the response, a flat dictionary of strings. *)
Record SpotifyApiError := {
  retry_after : option Z;
  response_json : gmap pystr pystr
}.

Inductive SlackApiError := SlackError.

Record UserProfileArgs := {
  status_text : pystr;
  status_emoji : pystr;
  status_expiration : option Z
}.

Record UserProfileData := { ok : bool; error : option pystr }.

Record User := {
  id : Z;
  spotifyAccessToken : pystr;
  spotifyRefreshToken : pystr;
  spotifyExpiresAt : Z;
  slackAccessToken : pystr;
  statusSetLastTime : bool;
  updatedAt : Z
}.

(** Keyword arguments of [user.update(...)]. *)
Inductive Field :=
| SpotifyExpiresAt (t : Z)
| SpotifyAccessToken (s : pystr)
| SpotifyRefreshToken (s : pystr)
| StatusSetLastTime (b : bool)
| UpdatedAt (t : Z).

Definition set_field (f : Field) (u : User) : User :=
  match f with
  | SpotifyExpiresAt t =>
      {| id := id u; spotifyAccessToken := spotifyAccessToken u;
         spotifyRefreshToken := spotifyRefreshToken u; spotifyExpiresAt := t;
         slackAccessToken := slackAccessToken u;
         statusSetLastTime := statusSetLastTime u; updatedAt := updatedAt u |}
  | SpotifyAccessToken s =>
      {| id := id u; spotifyAccessToken := s;
         spotifyRefreshToken := spotifyRefreshToken u;
         spotifyExpiresAt := spotifyExpiresAt u;
         slackAccessToken := slackAccessToken u;
         statusSetLastTime := statusSetLastTime u; updatedAt := updatedAt u |}
  | SpotifyRefreshToken s =>
      {| id := id u; spotifyAccessToken := spotifyAccessToken u;
         spotifyRefreshToken := s; spotifyExpiresAt := spotifyExpiresAt u;
         slackAccessToken := slackAccessToken u;
         statusSetLastTime := statusSetLastTime u; updatedAt := updatedAt u |}
  | StatusSetLastTime b =>
      {| id := id u; spotifyAccessToken := spotifyAccessToken u;
         spotifyRefreshToken := spotifyRefreshToken u;
         spotifyExpiresAt := spotifyExpiresAt u;
         slackAccessToken := slackAccessToken u;
         statusSetLastTime := b; updatedAt := updatedAt u |}
  | UpdatedAt t =>
      {| id := id u; spotifyAccessToken := spotifyAccessToken u;
         spotifyRefreshToken := spotifyRefreshToken u;
         spotifyExpiresAt := spotifyExpiresAt u;
         slackAccessToken := slackAccessToken u;
         statusSetLastTime := statusSetLastTime u; updatedAt := t |}
  end.

Definition apply_fields (fs : list Field) (u : User) : User :=
  fold_left (fun acc f => set_field f acc) fs u.

(** ** Python objects, as far as attribute access goes *)

Inductive Exn := AttributeError | OverflowError | RecursionError.

#[warnings="-register-all"]
Inductive pyval :=
| PyNone
| PyBool (b : bool)
| PyStr (s : pystr)
| PyObj (attrs : list (pystr * pyval)).

Fixpoint assoc (k : pystr) (l : list (pystr * pyval)) : option pyval :=
  match l with
  | [] => None
  | (k', v) :: l' => if bool_decide (k = k') then Some v else assoc k l'
  end.

(** [o.name]: [None] stands for the [AttributeError] Python raises when
    the object has no such attribute. *)
Definition getattr (o : pyval) (attr : pystr) : option pyval :=
  match o with
  | PyObj attrs => assoc attr attrs
  | _ => None
  end.

(** [v == s] for a string [s]. *)
Definition py_eq_str (v : pyval) (s : pystr) : bool :=
  match v with
  | PyStr t => bool_decide (t = s)
  | _ => false
  end.

(** An instance of the pydantic model [UserProfileData] as an object:
    its attributes are the declared fields [ok] and [error]. *)
Definition UserProfileData_object (d : UserProfileData) : pyval :=
  PyObj [(str "ok", PyBool (ok d));
         (str "error", match error d with Some e => PyStr e | None => PyNone end)].

(** The reply of [users.profile.get] as the worker reads it:
    [reply.profile.status_text]. *)
Definition profile_reply (text : pystr) : pyval :=
  PyObj [(str "ok", PyBool true);
         (str "profile", PyObj [(str "status_text", PyStr text)])].

(** ** [_calc_status_text] *)

Definition _calc_status_text (track : TrackItem) : pystr :=
  let by_artists :=
    if (length (artists track) =? 0)%nat then str ""
    else str " by " ++ join (str ", ") (map artist_name (artists track)) in
  let status_text := name track ++ by_artists in
  if (100 <? length status_text)%nat
  then strip (take 99 status_text) ++ ellipsis
  else status_text.

(** ** Effects of the worker's coroutines *)

(** What the worker hands to one of its collaborators and what comes back.
    An API error ([SpotifyApiError], [SlackApiError]) is the left summand
    of the answer: the worker catches it where the call is made. *)
Inductive Eff : Type -> Type :=
| Now : Eff Z
| Random : Eff Z
| ReadThreshold : Eff Z
| WriteThreshold (t : Z) : Eff unit
| GetCustomEmoji (user : User) (track : TrackItem) : Eff pystr
| Sleep (d : Z) : Eff unit
| GetPlayer (token : pystr) : Eff (SpotifyApiError + option PlayerData)
| GetNewAccessToken (token : pystr) (g : GrantType)
    : Eff (SpotifyApiError + TokenExchangeData)
| GetStatus (token : pystr) : Eff (SlackApiError + pyval)
| SetStatus (args : UserProfileArgs) (token : pystr)
    : Eff (SlackApiError + UserProfileData)
| UserDelete (uid : Z) : Eff unit
| UserUpdate (uid : Z) (fields : list Field) : Eff unit.

(** The operations the coroutine awaits: it may be suspended there and
    another coroutine may run.  The others complete on the spot. *)
Definition is_await {X} (e : Eff X) : bool :=
  match e with
  | Now | Random | ReadThreshold | WriteThreshold _ | GetCustomEmoji _ _ => false
  | _ => true
  end.

Inductive Prog (A : Type) : Type :=
| Ret (a : A)
| Raise (e : Exn)
| Vis {X : Type} (e : Eff X) (k : X -> Prog A).

Arguments Ret {A} a.
Arguments Raise {A} e.
Arguments Vis {A X} e k.

Fixpoint bind {A B} (p : Prog A) (f : A -> Prog B) : Prog B :=
  match p with
  | Ret a => f a
  | Raise e => Raise e
  | Vis e k => Vis e (fun x => bind (k x) f)
  end.

#[global] Instance Prog_ret : MRet Prog := fun A a => Ret a.
#[global] Instance Prog_bind : MBind Prog := fun A B f p => bind p f.

Definition perform {X} (e : Eff X) : Prog X := Vis e Ret.

(** The value of an operation of Python that raises [e] when it has
    none. *)
Definition raising (e : Exn) {A} (x : option A) : Prog A :=
  match x with
  | Some a => Ret a
  | None => Raise e
  end.

(** [o.attr] inside a coroutine: a missing attribute raises. *)
Definition attribute (o : pyval) (attr : pystr) : Prog pyval :=
  match getattr o attr with
  | Some v => Ret v
  | None => Raise AttributeError
  end.

(** Modelled from the spec: [calc_spotify_expiry] of
    [backend/utils/spotify.py], which is not part of the sources at hand;
    the new expiry is computed as now + providerExpiresIn. *)
Definition calc_spotify_expiry (expires_in : Z) : Prog Z :=
  now ← perform Now; mret (now + seconds expires_in).

(** ** [_update_spotify_tokens] *)

Definition fatal_refresh_errors : list pystr :=
  [str "Refresh token revoked"; str "User does not exist"].

(** [x in {...}] for the value of [dict.get]. *)
Definition in_set (x : option pystr) (set : list pystr) : bool :=
  match x with
  | Some s => bool_decide (s ∈ set)
  | None => false
  end.

Definition _update_spotify_tokens (user : User) : Prog (bool * User) :=
  r ← perform (GetNewAccessToken (spotifyRefreshToken user) REFRESH_TOKEN);
  match r with
  | inl err =>
      let err_dict := response_json err in
      if in_set (err_dict !! str "error_description") fatal_refresh_errors
      then perform (UserDelete (id user));; mret (false, user)
      else mret (false, user)
  | inr exchange_data =>
      expiry ← calc_spotify_expiry (expires_in exchange_data);
      now ← perform Now;
      let fields :=
        [SpotifyExpiresAt expiry;
         SpotifyAccessToken (access_token exchange_data);
         SpotifyRefreshToken (or_empty (refresh_token exchange_data));
         UpdatedAt now] in
      perform (UserUpdate (id user) fields);;
      mret (true, apply_fields fields user)
  end.

(** ** [_set_user_status] *)

(** The [except SlackApiError] clause. *)
Definition on_SlackApiError (user : User) : Prog (bool * User) :=
  now ← perform Now;
  perform (WriteThreshold (now + seconds 6));;
  mret (false, user).

Definition _set_user_status (user : User) (user_profile_args : UserProfileArgs)
    (status_set_last_time : bool) : Prog (bool * User) :=
  r ← perform (GetStatus (slackAccessToken user));
  match r with
  | inl err => on_SlackApiError user
  | inr current_profile =>
      profile ← attribute current_profile (str "profile");
      current_text ← attribute profile (str "status_text");
      if py_eq_str current_text (status_text user_profile_args)
      then mret (true, user)
      else
        perform (Sleep (seconds 1));;
        r' ← perform (SetStatus user_profile_args (slackAccessToken user));
        match r' with
        | inl err => on_SlackApiError user
        | inr user_profile_data =>
            if negb (ok user_profile_data) then
              (if in_set (error user_profile_data) [str "token_revoked"]
               then perform (UserDelete (id user))
               else mret tt);;
              mret (false, user)
            else
              now ← perform Now;
              let fields :=
                [StatusSetLastTime status_set_last_time; UpdatedAt now] in
              perform (UserUpdate (id user) fields);;
              mret (true, apply_fields fields user)
        end
  end.

(** ** [_update_user] *)

(** The value of a call of [_update_user] that returns. *)
Inductive Completion := Completed.

Definition spotify_token_expired (user : User) (now : Z) : bool :=
  spotifyExpiresAt user <=? now - minutes 5.

(** [fuel] is the number of nested calls of [_update_user] that the
    interpreter still allows: the call made when none is left raises
    [RecursionError].  The sum of line 83 raises [OverflowError] when the
    duration or the resulting time is out of range. *)
Fixpoint _update_user (fuel : nat) (user : User) (attempt : Z) : Prog Completion :=
  match fuel with
  | O => Raise RecursionError
  | S fuel' =>
    threshold ← perform ReadThreshold;
    now ← perform Now;
    let update_threshold_delta := threshold - now in
    (if 0 <? update_threshold_delta
     then jitter ← perform Random;
          perform (Sleep (update_threshold_delta + jitter))
     else mret tt);;
    now ← perform Now;
    let expired := spotify_token_expired user now in
    if expired && negb (truthy (spotifyRefreshToken user)) then
      perform (UserDelete (id user));; mret Completed
    else
      refreshed ← (if expired then _update_spotify_tokens user
                   else mret (true, user));
      let '(update_ok, user) := refreshed in
      if negb update_ok then mret Completed
      else
        r ← perform (GetPlayer (spotifyAccessToken user));
        match r with
        | inl err =>
            match retry_after err with
            | None => mret Completed
            | Some retry_after =>
                let retry_after_final := retry_after + 2 in
                now ← perform Now;
                delta ← raising OverflowError
                          (timedelta_seconds retry_after_final);
                threshold ← raising OverflowError (datetime_add now delta);
                perform (WriteThreshold threshold);;
                _update_user fuel' user (attempt + 1)
            end
        | inr player =>
            match player with
            | Some {| item := Some track; is_playing := true |} =>
                emoji ← perform (GetCustomEmoji user track);
                let user_profile_args :=
                  {| status_text := _calc_status_text track;
                     status_emoji := emoji;
                     status_expiration := Some 0 |} in
                _set_user_status user user_profile_args true;; mret tt
            | _ =>
                if statusSetLastTime user then
                  let user_profile_args :=
                    {| status_text := str ""; status_emoji := str "";
                       status_expiration := Some 0 |} in
                  _set_user_status user user_profile_args false;; mret tt
                else mret tt
            end;;
            perform (Sleep (seconds 3));;
            mret Completed
        end
  end.

(** ** The world the coroutines run in *)

(** What the collaborators were asked to do, in order. *)
Inductive Event :=
| EvSleep (d : Z)
| EvGetPlayer (token : pystr)
| EvGetNewAccessToken (token : pystr)
| EvGetStatus (token : pystr)
| EvSetStatus (args : UserProfileArgs) (token : pystr)
| EvDelete (uid : Z)
| EvUpdate (uid : Z) (fields : list Field).

Record World := {
  clock : Z;                    (* datetime.now(timezone.utc) *)
  UPDATE_THRESHOLD : Z;         (* the module-level global *)
  db : gmap Z User;             (* the rows of the user table *)
  slack : gmap pystr pystr;     (* status text stored by the platform, per token *)
  tick : nat;                   (* number of awaited operations so far *)
  trace : list Event            (* the awaited operations, latest first *)
}.

(** The collaborators' answers.  The index is the number of operations
    awaited before the call, so an environment can answer differently to
    each call. *)
Record Env := {
  env_random : nat -> N;        (* random(), in microseconds *)
  env_latency : nat -> N;       (* time an awaited operation takes beyond a sleep *)
  env_get_custom_emoji : User -> TrackItem -> pystr;
  env_get_player : nat -> pystr -> SpotifyApiError + option PlayerData;
  env_get_new_access_token : nat -> pystr -> SpotifyApiError + TokenExchangeData;
  env_get_status : nat -> pystr -> pystr -> SlackApiError + pyval;
  env_set_status : nat -> UserProfileArgs -> pystr -> SlackApiError + UserProfileData
}.

Definition set_threshold (t : Z) (w : World) : World :=
  {| clock := clock w; UPDATE_THRESHOLD := t; db := db w; slack := slack w;
     tick := tick w; trace := trace w |}.

Definition set_db (d : gmap Z User) (w : World) : World :=
  {| clock := clock w; UPDATE_THRESHOLD := UPDATE_THRESHOLD w; db := d;
     slack := slack w; tick := tick w; trace := trace w |}.

Definition set_slack (s : gmap pystr pystr) (w : World) : World :=
  {| clock := clock w; UPDATE_THRESHOLD := UPDATE_THRESHOLD w; db := db w;
     slack := s; tick := tick w; trace := trace w |}.

(** An awaited operation [ev] that takes [d] of its own: time passes, the
    operation is recorded. *)
Definition awaited (env : Env) (ev : Event) (d : Z) (w : World) : World :=
  {| clock := clock w + d + Z.of_N (env_latency env (tick w));
     UPDATE_THRESHOLD := UPDATE_THRESHOLD w; db := db w; slack := slack w;
     tick := S (tick w); trace := ev :: trace w |}.

(** The status text the platform stores for a token. *)
Definition stored_status (w : World) (token : pystr) : pystr :=
  default [] (slack w !! token).

(** A write that the platform accepts replaces the stored text. *)
Definition store_status (r : SlackApiError + UserProfileData)
    (args : UserProfileArgs) (token : pystr) (w : World) : World :=
  match r with
  | inr d => if ok d then set_slack (<[token := status_text args]> (slack w)) w
             else w
  | inl _ => w
  end.

Definition handle (env : Env) {X} (e : Eff X) (w : World) : X * World :=
  match e in Eff X return X * World with
  | Now => (clock w, w)
  | Random => (Z.of_N (env_random env (tick w)), w)
  | ReadThreshold => (UPDATE_THRESHOLD w, w)
  | WriteThreshold t => (tt, set_threshold t w)
  | GetCustomEmoji user track => (env_get_custom_emoji env user track, w)
  | Sleep d => (tt, awaited env (EvSleep d) (Z.max 0 d) w)
  | GetPlayer token =>
      (env_get_player env (tick w) token, awaited env (EvGetPlayer token) 0 w)
  | GetNewAccessToken token _ =>
      (env_get_new_access_token env (tick w) token,
       awaited env (EvGetNewAccessToken token) 0 w)
  | GetStatus token =>
      (env_get_status env (tick w) token (stored_status w token),
       awaited env (EvGetStatus token) 0 w)
  | SetStatus args token =>
      let r := env_set_status env (tick w) args token in
      (r, awaited env (EvSetStatus args token) 0 (store_status r args token w))
  | UserDelete uid =>
      (tt, awaited env (EvDelete uid) 0 (set_db (delete uid (db w)) w))
  | UserUpdate uid fields =>
      (tt, awaited env (EvUpdate uid fields) 0
             (set_db (alter (apply_fields fields) uid (db w)) w))
  end.

(** How a program ends: with a value or with an exception nobody caught. *)
Inductive Result (A : Type) :=
| Returned (a : A)
| Raised (e : Exn).

Arguments Returned {A} a.
Arguments Raised {A} e.

(** One coroutine, run on its own from start to end. *)
Fixpoint run {A} (env : Env) (p : Prog A) (w : World) : Result A * World :=
  match p with
  | Ret a => (Returned a, w)
  | Raise e => (Raised e, w)
  | Vis e k => let '(x, w') := handle env e w in run env (k x) w'
  end.

(** *** Several coroutines on one event loop *)

(** Run a coroutine up to its next [await]. *)
Fixpoint advance {A} (env : Env) (p : Prog A) (w : World) : Prog A * World :=
  match p with
  | Vis e k =>
      if is_await e then (p, w)
      else let '(x, w') := handle env e w in advance env (k x) w'
  | _ => (p, w)
  end.

(** The awaited operation of a suspended coroutine completes and the
    coroutine runs on to its next [await]. *)
Definition resume {A} (env : Env) (p : Prog A) (w : World) : Prog A * World :=
  match p with
  | Vis e k => let '(x, w') := handle env e w in advance env (k x) w'
  | _ => (p, w)
  end.

(** The event loop resumes the coroutine [i] of the pool. *)
Definition resume_nth {A} (env : Env) (i : nat) (pool : list (Prog A))
    (w : World) : list (Prog A) * World :=
  match pool !! i with
  | Some p => let '(p', w') := resume env p w in (<[i := p']> pool, w')
  | None => (pool, w)
  end.

(** The value of [UPDATE_THRESHOLD] after each resumption of a schedule. *)
Fixpoint thresholds {A} (env : Env) (schedule : list nat)
    (pool : list (Prog A)) (w : World) : list Z :=
  match schedule with
  | [] => []
  | i :: rest =>
      let '(pool', w') := resume_nth env i pool w in
      UPDATE_THRESHOLD w' :: thresholds env rest pool' w'
  end.

(** Every coroutine of the pool is started: it runs to its first [await]. *)
Fixpoint start_all {A} (env : Env) (pool : list (Prog A)) (w : World)
    : list (Prog A) * World :=
  match pool with
  | [] => ([], w)
  | p :: rest =>
      let '(p', w') := advance env p w in
      let '(rest', w'') := start_all env rest w' in
      (p' :: rest', w'')
  end.

(** ** Views and inputs used by the properties *)

(** The world once the operation [e] is over. *)
Definition after (env : Env) {X} (e : Eff X) (w : World) : World :=
  snd (handle env e w).

Arguments after : simpl never.

(** Lines 44 to 46: the wait on the shared threshold. *)
Definition after_gate (env : Env) (w : World) : World :=
  let delta := UPDATE_THRESHOLD w - clock w in
  if 0 <? delta
  then after env (Sleep (delta + Z.of_N (env_random env (tick w)))) w
  else w.

(** Lines 93 to 101: what [_set_user_status] is called with, if at all. *)
Definition desired_status (env : Env) (user : User)
    (player : option PlayerData) : option (UserProfileArgs * bool) :=
  match player with
  | Some {| item := Some track; is_playing := true |} =>
      Some ({| status_text := _calc_status_text track;
               status_emoji := env_get_custom_emoji env user track;
               status_expiration := Some 0 |}, true)
  | _ =>
      if statusSetLastTime user
      then Some ({| status_text := str ""; status_emoji := str "";
                    status_expiration := Some 0 |}, false)
      else None
  end.

(** Lines 93 to 101. *)
Definition reconcile (user : User) (player : option PlayerData) : Prog unit :=
  match player with
  | Some {| item := Some track; is_playing := true |} =>
      emoji ← perform (GetCustomEmoji user track);
      let user_profile_args :=
        {| status_text := _calc_status_text track; status_emoji := emoji;
           status_expiration := Some 0 |} in
      _set_user_status user user_profile_args true;; mret tt
  | _ =>
      if statusSetLastTime user then
        let user_profile_args :=
          {| status_text := str ""; status_emoji := str "";
             status_expiration := Some 0 |} in
        _set_user_status user user_profile_args false;; mret tt
      else mret tt
  end.

(** Lines 68 to 102, the recursive call being [retry]. *)
Definition fetch_playback (retry : User -> Z -> Prog Completion)
    (user : User) (attempt : Z) : Prog Completion :=
  r ← perform (GetPlayer (spotifyAccessToken user));
  match r with
  | inl err =>
      match retry_after err with
      | None => mret Completed
      | Some retry_after =>
          let retry_after_final := retry_after + 2 in
          now ← perform Now;
          delta ← raising OverflowError (timedelta_seconds retry_after_final);
          threshold ← raising OverflowError (datetime_add now delta);
          perform (WriteThreshold threshold);;
          retry user (attempt + 1)
      end
  | inr player =>
      reconcile user player;;
      perform (Sleep (seconds 3));;
      mret Completed
  end.

(** Lines 82 to 85: the threshold a hint [retry_after] gives at time
    [now]; [None] stands for the [OverflowError]. *)
Definition signal_threshold (now retry_after : Z) : option Z :=
  match timedelta_seconds (retry_after + 2) with
  | Some delta => datetime_add now delta
  | None => None
  end.

(** The fields [_update_spotify_tokens] stores on success at time [now]. *)
Definition refreshed_fields (exchange_data : TokenExchangeData) (now : Z)
    : list Field :=
  [SpotifyExpiresAt (now + seconds (expires_in exchange_data));
   SpotifyAccessToken (access_token exchange_data);
   SpotifyRefreshToken (or_empty (refresh_token exchange_data));
   UpdatedAt now].

(** The [except SlackApiError] clause on the world. *)
Definition status_penalty (w : World) : World :=
  set_threshold (clock w + seconds 6) w.

(** Lines 184 to 188: the text before the check of its length. *)
Definition full_status_text (track : TrackItem) : pystr :=
  name track ++
  (if (length (artists track) =? 0)%nat then str ""
   else str " by " ++ join (str ", ") (map artist_name (artists track))).

Definition track_with_space_at_99 : TrackItem :=
  {| name := replicate 98 97%N ++ str " " ++ replicate 10 98%N;
     artists := [] |}.

Definition track_of_109 : TrackItem :=
  {| name := replicate 109 97%N; artists := [] |}.

Definition track_name_of_101 : TrackItem :=
  {| name := replicate 101 97%N; artists := [] |}.

Definition Midnight : TrackItem :=
  {| name := str "Midnight";
     artists := [ {| artist_name := str "A" |}; {| artist_name := str "B" |} ] |}.

(** *** Concrete users, worlds and environments *)

Definition alice : User :=
  {| id := 1;
     spotifyAccessToken := str "access-1";
     spotifyRefreshToken := str "refresh-1";
     spotifyExpiresAt := seconds 3600;
     slackAccessToken := str "xoxp-1";
     statusSetLastTime := false;
     updatedAt := 0 |}.

Definition bob : User :=
  {| id := 2;
     spotifyAccessToken := str "access-2";
     spotifyRefreshToken := str "refresh-2";
     spotifyExpiresAt := seconds 3600;
     slackAccessToken := str "xoxp-2";
     statusSetLastTime := false;
     updatedAt := 0 |}.

(** The world at time [now], the threshold in the past, [users] stored. *)
Definition world_at (now : Z) (users : list User) : World :=
  {| clock := now; UPDATE_THRESHOLD := 0;
     db := list_to_map (map (fun u => (id u, u)) users);
     slack := ∅; tick := 0; trace := [] |}.

Definition no_error_body : SpotifyApiError :=
  {| retry_after := None; response_json := ∅ |}.

Definition throttled (retry_after : Z) : SpotifyApiError :=
  {| retry_after := Some retry_after; response_json := ∅ |}.


Definition accepted : UserProfileData := {| ok := true; error := None |}.

Definition rejected (reason : string) : UserProfileData :=
  {| ok := false; error := Some (str reason) |}.

(** Nothing is playing, refreshes fail without a description, the platform
    reports the status it stores and accepts every write. *)
Definition env_idle : Env :=
  {| env_random := fun _ => 0%N;
     env_latency := fun _ => 0%N;
     env_get_custom_emoji := fun _ _ => str ":headphones:";
     env_get_player := fun _ _ => inr None;
     env_get_new_access_token := fun _ _ => inl no_error_body;
     env_get_status := fun _ _ text => inr (profile_reply text);
     env_set_status := fun _ _ _ => inr accepted |}.

Definition with_player (f : nat -> pystr -> SpotifyApiError + option PlayerData)
    (env : Env) : Env :=
  {| env_random := env_random env; env_latency := env_latency env;
     env_get_custom_emoji := env_get_custom_emoji env;
     env_get_player := f;
     env_get_new_access_token := env_get_new_access_token env;
     env_get_status := env_get_status env;
     env_set_status := env_set_status env |}.

Definition with_new_access_token
    (f : nat -> pystr -> SpotifyApiError + TokenExchangeData) (env : Env) : Env :=
  {| env_random := env_random env; env_latency := env_latency env;
     env_get_custom_emoji := env_get_custom_emoji env;
     env_get_player := env_get_player env;
     env_get_new_access_token := f;
     env_get_status := env_get_status env;
     env_set_status := env_set_status env |}.

Definition with_get_status
    (f : nat -> pystr -> pystr -> SlackApiError + pyval) (env : Env) : Env :=
  {| env_random := env_random env; env_latency := env_latency env;
     env_get_custom_emoji := env_get_custom_emoji env;
     env_get_player := env_get_player env;
     env_get_new_access_token := env_get_new_access_token env;
     env_get_status := f;
     env_set_status := env_set_status env |}.

Definition with_set_status
    (f : nat -> UserProfileArgs -> pystr -> SlackApiError + UserProfileData)
    (env : Env) : Env :=
  {| env_random := env_random env; env_latency := env_latency env;
     env_get_custom_emoji := env_get_custom_emoji env;
     env_get_player := env_get_player env;
     env_get_new_access_token := env_get_new_access_token env;
     env_get_status := env_get_status env;
     env_set_status := f |}.

Definition with_latency (f : nat -> N) (env : Env) : Env :=
  {| env_random := env_random env; env_latency := f;
     env_get_custom_emoji := env_get_custom_emoji env;
     env_get_player := env_get_player env;
     env_get_new_access_token := env_get_new_access_token env;
     env_get_status := env_get_status env;
     env_set_status := env_set_status env |}.

Definition playing (track : TrackItem) : option PlayerData :=
  Some {| item := Some track; is_playing := true |}.

(** [get_status] answers with a value of its declared return type. *)
Definition env_declared_type : Env :=
  with_get_status (fun _ _ _ => inr (UserProfileData_object accepted))
    (with_player (fun _ _ => inr (playing Midnight)) env_idle).

(** The provider issues a new access token and no refresh token. *)
Definition exchange_without_refresh_token : TokenExchangeData :=
  {| expires_in := 3600; access_token := str "access-new";
     refresh_token := None |}.

Definition env_refresh_without_token : Env :=
  with_new_access_token (fun _ _ => inr exchange_without_refresh_token) env_idle.


(** alice, her access token long expired, with and without a refresh token. *)
Definition alice_without_refresh_token : User :=
  set_field (SpotifyRefreshToken (str "")) alice.






(** The threshold and the clock are both at or past [t]. *)
Definition above (t : Z) (w : World) : Prop :=
  t <= UPDATE_THRESHOLD w /\ t <= clock w.

(** Every awaited operation takes one second; the provider throttles the
    fetch of alice for 100 seconds and the fetch of bob for 0 seconds. *)
Definition env_two_signals : Env :=
  with_latency (fun _ => 1000000%N)
    (with_player
       (fun _ token =>
          if bool_decide (token = spotifyAccessToken alice)
          then inl (throttled 100) else inl (throttled 0))
       env_idle).

(** The platform cannot be reached. *)
Definition env_slack_down : Env :=
  with_get_status (fun _ _ _ => inl SlackError)
    (with_player (fun _ _ => inr (playing Midnight)) env_idle).

(** *** Counting the writes to the platform *)

Definition is_write (ev : Event) : bool :=
  match ev with EvSetStatus _ _ => true | _ => false end.

Fixpoint count_writes (events : list Event) : nat :=
  match events with
  | [] => 0
  | ev :: rest => (if is_write ev then 1 else 0) + count_writes rest
  end.

(** The number of [set_status] calls issued so far. *)
Definition writes (w : World) : nat := count_writes (trace w).

Definition is_SetStatus {X} (e : Eff X) : bool :=
  match e with SetStatus _ _ => true | _ => false end.

Definition changes_db {X} (e : Eff X) : bool :=
  match e with UserDelete _ | UserUpdate _ _ => true | _ => false end.

(** Nothing is playing: no snapshot, no current track, or paused. *)
Definition nothing_playing (player : option PlayerData) : Prop :=
  match player with
  | Some {| item := Some _; is_playing := true |} => False
  | _ => True
  end.

(** The platform already stores the text the reconciliation of [player]
    wants for [u], if it wants any. *)
Definition settled (env : Env) (player : option PlayerData) (u : User)
    (w : World) : Prop :=
  forall args b,
    desired_status env u player = Some (args, b) ->
    stored_status w (slackAccessToken u) = status_text args.

(** Every row is stored under its own id. *)
Definition keyed (w : World) : Prop :=
  forall k v, db w !! k = Some v -> id v = k.

(** Midnight is playing and the platform rejects every write. *)
Definition env_write_rejected : Env :=
  with_set_status (fun _ _ _ => inr (rejected "ratelimited"))
    (with_player (fun _ _ => inr (playing Midnight)) env_idle).

(** Midnight is playing and the platform accepts every write. *)
Definition env_midnight : Env :=
  with_player (fun _ _ => inr (playing Midnight)) env_idle.

(** The sum [now + timedelta(seconds=retry_after + 2)] of lines 83 to 85
    exists: the duration is within the range of [timedelta] and the sum
    within the range of [datetime]. *)
Definition threshold_representable (now retry_after : Z) : Prop :=
  Z.abs ((retry_after + 2) / 86400) <= 999999999
  /\ datetime_min <= now + seconds (retry_after + 2) <= datetime_max.

(** *** Counting the playback fetches *)

Definition is_fetch (ev : Event) : bool :=
  match ev with EvGetPlayer _ => true | _ => false end.

Fixpoint count_fetches (events : list Event) : nat :=
  match events with
  | [] => 0
  | ev :: rest => (if is_fetch ev then 1 else 0) + count_fetches rest
  end.

(** The number of [get_player] calls issued so far. *)
Definition fetches (w : World) : nat := count_fetches (trace w).

Definition is_GetPlayer {X} (e : Eff X) : bool :=
  match e with GetPlayer _ => true | _ => false end.

(** The provider asks to retry after 10^12 seconds, beyond the year
    9999. *)
Definition hinted_far_future : SpotifyApiError := throttled 1000000000000.

Definition env_huge_hint : Env :=
  with_player (fun _ _ => inl hinted_far_future) env_idle.

(** ** Further views: what one update may touch, and schedules *)

(** The operation concerns the row [uid] and the platform token [token]
    only. *)
Definition own_eff (uid : Z) (token : pystr) {X} (e : Eff X) : Prop :=
  match e with
  | UserDelete k | UserUpdate k _ => k = uid
  | GetStatus t | SetStatus _ t => t = token
  | _ => True
  end.

(** Every operation of the program, whatever the collaborators answer,
    concerns [uid] and [token] only, and the values it returns satisfy
    [Q]. *)
Fixpoint confined (uid : Z) (token : pystr) {A} (Q : A -> Prop)
    (p : Prog A) : Prop :=
  match p with
  | Ret a => Q a
  | Raise _ => True
  | Vis e k => own_eff uid token e /\ forall x, confined uid token Q (k x)
  end.

(** The same user as [u], as far as the row and the platform go. *)
Definition same_owner (u : User) (r : bool * User) : Prop :=
  id (snd r) = id u /\ slackAccessToken (snd r) = slackAccessToken u.

(** The event loop resumes the coroutines of the pool in the order of the
    schedule. *)
Fixpoint run_schedule {A} (env : Env) (schedule : list nat)
    (pool : list (Prog A)) (w : World) : list (Prog A) * World :=
  match schedule with
  | [] => (pool, w)
  | i :: rest =>
      let '(pool', w') := resume_nth env i pool w in
      run_schedule env rest pool' w'
  end.

(** One update per user, all started together. *)
Definition update_tasks (fuel : nat) (users : list User) : list (Prog Completion) :=
  map (fun user => _update_user fuel user 1) users.

(** The rows and the stored statuses of everybody but [users] are the
    same in both worlds. *)
Definition others_untouched (users : list User) (w w' : World) : Prop :=
  (forall k, (forall u, u ∈ users -> id u <> k) -> db w' !! k = db w !! k)
  /\ (forall t, (forall u, u ∈ users -> slackAccessToken u <> t) ->
        slack w' !! t = slack w !! t).

(** Every row but [uid] and every stored status but the one of [token]
    are the same in both worlds. *)
Definition untouched_except (uid : Z) (token : pystr) (w w' : World) : Prop :=
  (forall k, k <> uid -> db w' !! k = db w !! k)
  /\ (forall t, t <> token -> slack w' !! t = slack w !! t).

(** The program is an update of the user [u]: it stays with the row and
    the token of [u]. *)
Definition task_of (u : User) (p : Prog Completion) : Prop :=
  confined (id u) (slackAccessToken u) (fun _ => True) p.

(** bob, with a status set on the platform by an earlier cycle. *)
Definition bob_with_status : User :=
  set_field (StatusSetLastTime true) bob.

Definition world_with_status (now : Z) (u : User) (text : pystr) : World :=
  set_slack {[ slackAccessToken u := text ]} (world_at now [u]).

(** The playback fetch fails without a retry-after hint. *)
Definition env_player_unavailable : Env :=
  with_player (fun _ _ => inl no_error_body) env_idle.

(** * Properties *)

Arguments str : simpl never.
Arguments seconds : simpl never.
Arguments minutes : simpl never.
Arguments _update_spotify_tokens : simpl never.
Arguments _set_user_status : simpl never.
Arguments _calc_status_text : simpl never.
Arguments spotify_token_expired : simpl never.
Arguments awaited : simpl never.
Arguments set_threshold : simpl never.
Arguments set_db : simpl never.
Arguments store_status : simpl never.
Arguments stored_status : simpl never.
Arguments in_set : simpl never.
Arguments apply_fields : simpl never.
Arguments timedelta_seconds : simpl never.
Arguments datetime_add : simpl never.

(** Unfold the worlds built by the handler down to their fields. *)
Ltac open_world :=
  unfold after, status_penalty; cbn [handle snd fst];
  unfold awaited, set_db, set_threshold, set_slack;
  cbn [clock UPDATE_THRESHOLD db slack tick trace].

(** ** Running a program piece by piece *)

Lemma run_bind {A B} env (p : Prog A) (f : A -> Prog B) w :
  run env (p ≫= f) w =
  match run env p w with
  | (Returned a, w') => run env (f a) w'
  | (Raised e, w') => (Raised e, w')
  end.
Proof.
  revert w. induction p as [a|e|X e k IH]; intros w; cbn; try reflexivity.
  destruct (handle env e w) as [x w']. apply IH.
Qed.

(** *** The equations of the coroutines *)

Lemma run_update_spotify_tokens env u w :
  run env (_update_spotify_tokens u) w =
  let token := spotifyRefreshToken u in
  let w1 := after env (GetNewAccessToken token REFRESH_TOKEN) w in
  match env_get_new_access_token env (tick w) token with
  | inl err =>
      if in_set (response_json err !! str "error_description")
           fatal_refresh_errors
      then (Returned (false, u), after env (UserDelete (id u)) w1)
      else (Returned (false, u), w1)
  | inr exchange_data =>
      let fields := refreshed_fields exchange_data (clock w1) in
      (Returned (true, apply_fields fields u),
       after env (UserUpdate (id u) fields) w1)
  end.
Proof.
  unfold _update_spotify_tokens. cbn.
  destruct (env_get_new_access_token env (tick w) (spotifyRefreshToken u))
    as [err|ed]; cbn.
  - destruct (in_set _ _); reflexivity.
  - reflexivity.
Qed.

Lemma run_set_user_status env u args b w :
  run env (_set_user_status u args b) w =
  let token := slackAccessToken u in
  let w1 := after env (GetStatus token) w in
  match env_get_status env (tick w) token (stored_status w token) with
  | inl _ => (Returned (false, u), status_penalty w1)
  | inr current_profile =>
    match getattr current_profile (str "profile") with
    | None => (Raised AttributeError, w1)
    | Some profile =>
      match getattr profile (str "status_text") with
      | None => (Raised AttributeError, w1)
      | Some current_text =>
        if py_eq_str current_text (status_text args)
        then (Returned (true, u), w1)
        else
          let w2 := after env (Sleep (seconds 1)) w1 in
          let w3 := after env (SetStatus args token) w2 in
          match env_set_status env (tick w2) args token with
          | inl _ => (Returned (false, u), status_penalty w3)
          | inr d =>
              if negb (ok d) then
                (Returned (false, u),
                 if in_set (error d) [str "token_revoked"]
                 then after env (UserDelete (id u)) w3 else w3)
              else
                let fields := [StatusSetLastTime b; UpdatedAt (clock w3)] in
                (Returned (true, apply_fields fields u),
                 after env (UserUpdate (id u) fields) w3)
          end
      end
    end
  end.
Proof.
  unfold _set_user_status. cbn.
  destruct (env_get_status env (tick w) (slackAccessToken u) _) as [err|cp];
    cbn; [reflexivity|].
  unfold attribute.
  destruct (getattr cp (str "profile")) as [p|]; cbn; [|reflexivity].
  destruct (getattr p (str "status_text")) as [t|]; cbn; [|reflexivity].
  destruct (py_eq_str t (status_text args)); cbn; [reflexivity|].
  unfold after; cbn.
  destruct (env_set_status env _ args (slackAccessToken u)) as [err|d];
    cbn; [reflexivity|].
  destruct (ok d); cbn; [reflexivity|].
  destruct (in_set (error d) _); reflexivity.
Qed.

Lemma run_reconcile env u player w :
  run env (reconcile u player) w =
  match desired_status env u player with
  | None => (Returned tt, w)
  | Some (args, b) =>
      match run env (_set_user_status u args b) w with
      | (Returned _, w') => (Returned tt, w')
      | (Raised e, w') => (Raised e, w')
      end
  end.
Proof.
  unfold reconcile, desired_status.
  destruct player as [[[track|] []]|]; cbn;
    try (destruct (statusSetLastTime u); [|reflexivity]);
    rewrite run_bind;
    destruct (run env (_set_user_status u _ _) w) as [[r|e] w']; reflexivity.
Qed.

Lemma run_fetch_playback env retry u a w :
  run env (fetch_playback retry u a) w =
  let token := spotifyAccessToken u in
  let w1 := after env (GetPlayer token) w in
  match env_get_player env (tick w) token with
  | inl err =>
      match retry_after err with
      | None => (Returned Completed, w1)
      | Some retry_after =>
          match signal_threshold (clock w1) retry_after with
          | Some threshold =>
              run env (retry u (a + 1)) (set_threshold threshold w1)
          | None => (Raised OverflowError, w1)
          end
      end
  | inr player =>
      match run env (reconcile u player) w1 with
      | (Returned _, w2) =>
          (Returned Completed, after env (Sleep (seconds 3)) w2)
      | (Raised e, w2) => (Raised e, w2)
      end
  end.
Proof.
  unfold fetch_playback. cbn.
  destruct (env_get_player env (tick w) (spotifyAccessToken u)) as [err|player].
  - destruct (retry_after err) as [R|]; [|reflexivity].
    unfold signal_threshold. cbn.
    destruct (timedelta_seconds (R + 2)) as [delta|]; cbn; [|reflexivity].
    destruct (datetime_add _ delta); reflexivity.
  - rewrite run_bind.
    destruct (run env (reconcile u player) _) as [[r|e] w2]; reflexivity.
Qed.

Lemma run_update_user_S env fuel u a w :
  run env (_update_user (S fuel) u a) w =
  let w1 := after_gate env w in
  let expired := spotify_token_expired u (clock w1) in
  if expired && negb (truthy (spotifyRefreshToken u))
  then (Returned Completed, after env (UserDelete (id u)) w1)
  else if expired then
    match run env (_update_spotify_tokens u) w1 with
    | (Returned (true, u'), w2) =>
        run env (fetch_playback (_update_user fuel) u' a) w2
    | (Returned (false, _), w2) => (Returned Completed, w2)
    | (Raised e, w2) => (Raised e, w2)
    end
  else run env (fetch_playback (_update_user fuel) u a) w1.
Proof.
  change (_update_user (S fuel) u a) with
    (threshold ← perform ReadThreshold;
     now ← perform Now;
     (if 0 <? threshold - now
      then jitter ← perform Random; perform (Sleep (threshold - now + jitter))
      else mret tt);;
     now ← perform Now;
     if spotify_token_expired u now && negb (truthy (spotifyRefreshToken u))
     then perform (UserDelete (id u));; mret Completed
     else
       refreshed ← (if spotify_token_expired u now
                    then _update_spotify_tokens u else mret (true, u));
       let '(update_ok, user) := refreshed in
       if negb update_ok then mret Completed
       else fetch_playback (_update_user fuel) user a).
  cbn. rewrite run_bind. unfold after_gate.
  destruct (0 <? UPDATE_THRESHOLD w - clock w); cbn.
  - set (w1 := after env _ w).
    change (awaited env _ _ w) with w1.
    destruct (spotify_token_expired u (clock w1)); cbn.
    + destruct (truthy (spotifyRefreshToken u)); cbn; [|reflexivity].
      rewrite run_bind.
      destruct (run env (_update_spotify_tokens u) w1) as [[[[] u']|e] w2];
        reflexivity.
    + reflexivity.
  - destruct (spotify_token_expired u (clock w)); cbn.
    + destruct (truthy (spotifyRefreshToken u)); cbn; [|reflexivity].
      rewrite run_bind.
      destruct (run env (_update_spotify_tokens u) w) as [[[[] u']|e] w2];
        reflexivity.
    + reflexivity.
Qed.

(** ** Strings *)

Lemma lstrip_length s : (length (lstrip s) <= length s)%nat.
Proof.
  induction s as [|c s IH]; cbn; [lia|].
  destruct (isspace c); cbn; lia.
Qed.

Lemma rstrip_length s : (length (rstrip s) <= length s)%nat.
Proof.
  unfold rstrip. rewrite length_rev.
  etransitivity; [apply lstrip_length|]. rewrite length_rev. lia.
Qed.

Lemma strip_length s : (length (strip s) <= length s)%nat.
Proof.
  unfold strip. etransitivity; [apply rstrip_length|]. apply lstrip_length.
Qed.

Lemma lstrip_keeps s c :
  head s = Some c -> isspace c = false -> lstrip s = s.
Proof.
  destruct s as [|c' s]; cbn; [discriminate|].
  intros [= ->] ->. reflexivity.
Qed.

Lemma rstrip_keeps s c :
  last s = Some c -> isspace c = false -> rstrip s = s.
Proof.
  intros Hlast Hc. apply last_Some in Hlast as [s' ->].
  unfold rstrip. rewrite rev_app_distr. cbn. rewrite Hc. cbn.
  rewrite rev_involutive. reflexivity.
Qed.

Lemma strip_keeps s c c' :
  head s = Some c -> last s = Some c' ->
  isspace c = false -> isspace c' = false -> strip s = s.
Proof.
  intros Hh Hl Hc Hc'. unfold strip.
  rewrite (lstrip_keeps s c Hh Hc). apply (rstrip_keeps s c' Hl Hc').
Qed.

Lemma calc_status_text_eq track :
  _calc_status_text track =
  if (100 <? length (full_status_text track))%nat
  then strip (take 99 (full_status_text track)) ++ ellipsis
  else full_status_text track.
Proof. reflexivity. Qed.

(** ** The status text *)

(** C3, as stated, fails: a text of 109 characters whose 99th character is
    a space is cut to 98 characters of content and the ellipsis. *)
Lemma truncation_not_always_99_chars :
  (100 < length (full_status_text track_with_space_at_99))%nat /\
  ~ exists content : pystr,
      length content = 99%nat /\
      _calc_status_text track_with_space_at_99 = content ++ ellipsis.
Proof.
  split.
  - apply Nat.ltb_lt. vm_compute. reflexivity.
  - intros (content & Hlen & Heq).
    apply (f_equal length) in Heq. rewrite length_app, Hlen in Heq.
    vm_compute in Heq. discriminate.
Qed.

(** C3, amended: a text longer than 100 characters becomes its first 99
    characters, stripped of whitespace at both ends, followed by one
    ellipsis character; the result has at most 100 characters, and exactly
    99 characters of content when the first and the 99th character are not
    whitespace. *)
Theorem truncation_strips_then_appends_ellipsis (track : TrackItem) :
  (100 < length (full_status_text track))%nat ->
  _calc_status_text track
    = strip (take 99 (full_status_text track)) ++ ellipsis
  /\ (length (_calc_status_text track) <= 100)%nat
  /\ (forall c c' : N,
        full_status_text track !! 0%nat = Some c ->
        full_status_text track !! 98%nat = Some c' ->
        isspace c = false -> isspace c' = false ->
        _calc_status_text track = take 99 (full_status_text track) ++ ellipsis
        /\ length (take 99 (full_status_text track)) = 99%nat
        /\ length (_calc_status_text track) = 100%nat).
Proof.
  intros Hlong. rewrite calc_status_text_eq.
  apply Nat.ltb_lt in Hlong as Hb. rewrite Hb.
  assert (Htake : length (take 99 (full_status_text track)) = 99%nat)
    by (rewrite length_take; lia).
  split; [reflexivity|]. split.
  - rewrite length_app. cbn.
    pose proof (strip_length (take 99 (full_status_text track))). lia.
  - intros c c' H0 H98 Hc Hc'.
    rewrite (strip_keeps (take 99 (full_status_text track)) c c'); auto.
    + rewrite length_app, Htake. cbn. auto.
    + rewrite head_lookup, lookup_take_lt by lia. exact H0.
    + rewrite last_lookup, Htake. cbn. rewrite lookup_take_lt by lia.
      exact H98.
Qed.

Lemma truncation_strips_then_appends_ellipsis_witness :
  _calc_status_text track_of_109 = replicate 99 97%N ++ ellipsis.
Proof.
  assert (Hlong : (100 < length (full_status_text track_of_109))%nat)
    by (apply Nat.ltb_lt; vm_compute; reflexivity).
  destruct (truncation_strips_then_appends_ellipsis track_of_109 Hlong)
    as (_ & _ & Hexact).
  destruct (Hexact 97%N 97%N) as (Heq & _ & _);
    [reflexivity | reflexivity | reflexivity | reflexivity |].
  rewrite Heq. reflexivity.
Defined.

(** C8, as stated, fails: with no artist and a name of 101 characters the
    status text is not the track name. *)
Lemma long_name_is_not_kept :
  artists track_name_of_101 = []
  /\ _calc_status_text track_name_of_101 <> name track_name_of_101.
Proof.
  split; [reflexivity|]. intros Heq.
  apply (f_equal length) in Heq. vm_compute in Heq. discriminate.
Qed.

(** C8, amended: when the track name with its artists clause has at most
    100 characters, the status text is the track name alone if there is no
    artist, and the track name, " by " and the artist names joined by ", "
    otherwise; "Midnight" by A and B gives "Midnight by A, B". *)
Theorem status_text_of_short_track (track : TrackItem) :
  (length (full_status_text track) <= 100)%nat ->
  (artists track = [] -> _calc_status_text track = name track)
  /\ (artists track <> [] ->
      _calc_status_text track
        = name track ++ str " by "
            ++ join (str ", ") (map artist_name (artists track)))
  /\ _calc_status_text Midnight = str "Midnight by A, B".
Proof.
  intros Hshort. rewrite calc_status_text_eq.
  assert (Hb : (100 <? length (full_status_text track))%nat = false)
    by (apply Nat.ltb_ge; lia).
  rewrite Hb. unfold full_status_text. repeat split.
  - intros ->. cbn. apply app_nil_r.
  - intros Hne. destruct (artists track) as [|a l]; [congruence|].
    cbn [length Nat.eqb]. reflexivity.
Qed.

Lemma status_text_of_short_track_witness :
  _calc_status_text Midnight
    = name Midnight ++ str " by "
        ++ join (str ", ") (map artist_name (artists Midnight)).
Proof.
  assert (Hshort : (length (full_status_text Midnight) <= 100)%nat)
    by (apply Nat.leb_le; vm_compute; reflexivity).
  destruct (status_text_of_short_track Midnight Hshort) as (_ & Hby & _).
  apply Hby. discriminate.
Defined.

(** ** The status diff *)

Lemma getattr_UserProfileData d :
  getattr (UserProfileData_object d) (str "profile") = None.
Proof. reflexivity. Qed.

(** C10: on every value of the type [get_status] declares to return, a
    model with the fields [ok] and [error] only, the comparison of
    [_set_user_status] faults: reading [profile] raises [AttributeError],
    and nothing catches it. *)
Theorem status_diff_faults_on_declared_type
    (env : Env) (user : User) (args : UserProfileArgs) (b : bool) (w : World)
    (d : UserProfileData) :
  env_get_status env (tick w) (slackAccessToken user)
    (stored_status w (slackAccessToken user))
    = inr (UserProfileData_object d) ->
  getattr (UserProfileData_object d) (str "profile") = None
  /\ fst (run env (_set_user_status user args b) w) = Raised AttributeError.
Proof.
  intros Hreply. split; [reflexivity|].
  rewrite run_set_user_status. cbv zeta. rewrite Hreply.
  rewrite getattr_UserProfileData. reflexivity.
Qed.

Lemma status_diff_faults_on_declared_type_witness :
  fst (run env_declared_type
         (_set_user_status alice
            {| status_text := str "Midnight by A, B";
               status_emoji := str ":headphones:";
               status_expiration := Some 0 |} true)
         (world_at 0 [alice]))
  = Raised AttributeError.
Proof.
  apply (status_diff_faults_on_declared_type env_declared_type alice _ true
           (world_at 0 [alice]) accepted).
  reflexivity.
Defined.

(** C9: when the status text fetched from the platform equals the desired
    text, [_set_user_status] returns success after the fetch alone: no
    write is issued, the user object and the stored rows are the ones
    before the call (so are [statusSetLastTime] and [updatedAt]), and the
    shared threshold is untouched. *)
Theorem unchanged_status_skips_write
    (env : Env) (user : User) (args : UserProfileArgs) (b : bool) (w : World)
    (current_profile profile current_text : pyval) :
  env_get_status env (tick w) (slackAccessToken user)
    (stored_status w (slackAccessToken user)) = inr current_profile ->
  getattr current_profile (str "profile") = Some profile ->
  getattr profile (str "status_text") = Some current_text ->
  py_eq_str current_text (status_text args) = true ->
  exists w' : World,
    run env (_set_user_status user args b) w = (Returned (true, user), w')
    /\ trace w' = EvGetStatus (slackAccessToken user) :: trace w
    /\ db w' = db w
    /\ slack w' = slack w
    /\ UPDATE_THRESHOLD w' = UPDATE_THRESHOLD w.
Proof.
  intros Hreply Hprofile Htext Heq.
  exists (after env (GetStatus (slackAccessToken user)) w).
  rewrite run_set_user_status. cbv zeta.
  rewrite Hreply, Hprofile, Htext, Heq. repeat split; reflexivity.
Qed.

Lemma unchanged_status_skips_write_witness :
  exists w' : World,
    run env_idle
      (_set_user_status alice
         {| status_text := str ""; status_emoji := str "";
            status_expiration := Some 0 |} false)
      (world_at 0 [alice]) = (Returned (true, alice), w')
    /\ trace w' = [EvGetStatus (slackAccessToken alice)]
    /\ db w' = db (world_at 0 [alice]).
Proof.
  destruct (unchanged_status_skips_write env_idle alice
              {| status_text := str ""; status_emoji := str "";
                 status_expiration := Some 0 |} false (world_at 0 [alice])
              (profile_reply (str ""))
              (PyObj [(str "status_text", PyStr (str ""))])
              (PyStr (str "")))
    as (w' & Hrun & Htrace & Hdb & _ & _);
    [reflexivity | reflexivity | reflexivity | reflexivity |].
  exists w'. repeat split; assumption.
Defined.

(** ** Credentials *)

Lemma spotify_token_expired_iff u now :
  spotify_token_expired u now = true <-> spotifyExpiresAt u + minutes 5 <= now.
Proof. unfold spotify_token_expired. rewrite Z.leb_le. lia. Qed.

(** C4: the code enters the refresh only once the expiry lies five minutes
    in the past, where the claim has it entered from five minutes before
    the expiry.  One minute after the expiry of her token the update of
    alice does not refresh it: the playback is fetched with the expired
    token. *)
Theorem refresh_waits_five_minutes_past_expiry :
  (forall (u : User) (now : Z),
     spotify_token_expired u now = true
     <-> spotifyExpiresAt u + minutes 5 <= now)
  /\ spotifyExpiresAt alice + minutes 1 = clock (world_at (seconds 3660) [alice])
  /\ spotify_token_expired alice (clock (world_at (seconds 3660) [alice])) = false
  /\ trace (snd (run env_idle (_update_user 1 alice 1)
                   (world_at (seconds 3660) [alice])))
     = [EvSleep (seconds 3); EvGetPlayer (spotifyAccessToken alice)].
Proof.
  split; [exact spotify_token_expired_iff|].
  repeat split; vm_compute; reflexivity.
Qed.

(** C5, as stated, fails: the provider issues no refresh token, and the
    refresh token of alice is replaced by the empty string, on the object
    and in her row. *)
Lemma refresh_token_not_kept :
  exists (u' : User) (w' : World),
    run env_refresh_without_token (_update_spotify_tokens alice)
      (world_at (seconds 4000) [alice]) = (Returned (true, u'), w')
    /\ spotifyRefreshToken u' = str ""
    /\ spotifyRefreshToken <$> db w' !! id alice = Some (str "")
    /\ spotifyRefreshToken alice = str "refresh-1".
Proof.
  eexists _, _. split; [rewrite run_update_spotify_tokens; reflexivity|].
  repeat split; vm_compute; reflexivity.
Qed.

Lemma or_empty_spec x :
  or_empty x = match x with Some (c :: s) => c :: s | _ => [] end.
Proof. destruct x as [[|c s]|]; reflexivity. Qed.

(** C5, amended: on a successful refresh the user object and the user's
    row get the new access token, the expiry now + expires_in (now being
    the time the provider's answer is processed), the update time now, and
    the refresh token the provider issued, or the empty string when it
    issued none; the other fields are kept. *)
Theorem successful_refresh_stores_tokens
    (env : Env) (user : User) (w : World) (exchange_data : TokenExchangeData) :
  env_get_new_access_token env (tick w) (spotifyRefreshToken user)
    = inr exchange_data ->
  db w !! id user = Some user ->
  let now :=
    clock (after env (GetNewAccessToken (spotifyRefreshToken user)
                        REFRESH_TOKEN) w) in
  exists (user' : User) (w' : World),
    run env (_update_spotify_tokens user) w = (Returned (true, user'), w')
    /\ spotifyAccessToken user' = access_token exchange_data
    /\ spotifyExpiresAt user' = now + seconds (expires_in exchange_data)
    /\ updatedAt user' = now
    /\ spotifyRefreshToken user'
       = match refresh_token exchange_data with
         | Some (c :: s) => c :: s
         | _ => str ""
         end
    /\ id user' = id user
    /\ slackAccessToken user' = slackAccessToken user
    /\ statusSetLastTime user' = statusSetLastTime user
    /\ db w' !! id user = Some user'.
Proof.
  intros Hreply Hrow now. rewrite run_update_spotify_tokens. cbv zeta.
  rewrite Hreply. eexists _, _. split; [reflexivity|].
  repeat split; try reflexivity.
  - apply or_empty_spec.
  - open_world. rewrite lookup_alter_eq, Hrow. reflexivity.
Qed.

Lemma successful_refresh_stores_tokens_witness :
  exists (user' : User) (w' : World),
    run env_refresh_without_token (_update_spotify_tokens alice)
      (world_at (seconds 4000) [alice]) = (Returned (true, user'), w')
    /\ spotifyAccessToken user' = str "access-new"
    /\ spotifyExpiresAt user' = seconds 7600.
Proof.
  destruct (successful_refresh_stores_tokens env_refresh_without_token alice
              (world_at (seconds 4000) [alice]) exchange_without_refresh_token)
    as (user' & w' & Hrun & Haccess & Hexpiry & _);
    [reflexivity | reflexivity |].
  exists user', w'. split; [exact Hrun|]. split; [exact Haccess|].
  rewrite Hexpiry. reflexivity.
Defined.


Lemma truthy_false s : truthy s = false <-> s = [].
Proof. destruct s; cbn; split; congruence. Qed.

Lemma after_gate_db env w : db (after_gate env w) = db w.
Proof. unfold after_gate. destruct (0 <? _); reflexivity. Qed.

Lemma after_gate_trace env w :
  trace (after_gate env w) = trace w
  \/ exists d, trace (after_gate env w) = EvSleep d :: trace w.
Proof.
  unfold after_gate. destruct (0 <? _); [right; eexists; reflexivity | left; reflexivity].
Qed.



(** ** What the handler does to the world *)

Lemma store_status_fields r args token w :
  clock (store_status r args token w) = clock w
  /\ UPDATE_THRESHOLD (store_status r args token w) = UPDATE_THRESHOLD w
  /\ db (store_status r args token w) = db w
  /\ tick (store_status r args token w) = tick w
  /\ trace (store_status r args token w) = trace w.
Proof.
  unfold store_status. destruct r as [|d]; [auto|].
  destruct (ok d); auto.
Qed.

Lemma after_clock env {X} (e : Eff X) w : clock w <= clock (after env e w).
Proof.
  destruct e; open_world; try lia.
  destruct (store_status_fields (env_set_status env (tick w) args token)
              args token w) as (-> & _). lia.
Qed.

Lemma after_threshold env {X} (e : Eff X) w :
  is_await e = true ->
  UPDATE_THRESHOLD (after env e w) = UPDATE_THRESHOLD w.
Proof.
  destruct e; cbn; try discriminate; intros _; open_world; try reflexivity.
  apply store_status_fields.
Qed.



(** ** Every run *)

Lemma handle_trace env {X} (e : Eff X) w :
  exists new, trace (snd (handle env e w)) = new ++ trace w.
Proof.
  destruct e; cbn;
    try (exists []; reflexivity);
    try (eexists [_]; reflexivity).
  eexists [_]. unfold awaited. cbn. f_equal. apply store_status_fields.
Qed.

Lemma run_trace {A} env (p : Prog A) : forall w,
  exists new, trace (snd (run env p w)) = new ++ trace w.
Proof.
  induction p as [a|e|X e k IH]; intros w; cbn; try (exists []; reflexivity).
  destruct (handle_trace env e w) as [new1 H1].
  destruct (handle env e w) as [x w1]. cbn in H1.
  destruct (IH x w1) as [new2 H2]. exists (new2 ++ new1).
  rewrite H2, H1. apply app_assoc.
Qed.

Lemma run_clock {A} env (p : Prog A) : forall w,
  clock w <= clock (snd (run env p w)).
Proof.
  induction p as [a|e|X e k IH]; intros w; cbn; try lia.
  pose proof (after_clock env e w) as H1. unfold after in H1.
  destruct (handle env e w) as [x w1]. cbn in H1.
  pose proof (IH x w1). lia.
Qed.

(** C6: the first case of the claim fails on the code during the five
    minutes that follow the expiry: the access token is expired, the
    refresh token is empty, and the cycle does not delete the user but
    goes on to the playback fetch with the expired token, because the
    test of the code subtracts the five minutes (the defect of C4). *)
Theorem expired_token_without_refresh_token_is_kept
    (env : Env) (fuel : nat) (u : User) (a : Z) (w : World) :
  let w1 := after_gate env w in
  let cycle := run env (_update_user (S fuel) u a) w in
  spotifyExpiresAt u <= clock w1 ->
  clock w1 < spotifyExpiresAt u + minutes 5 ->
  spotifyRefreshToken u = [] ->
  cycle = run env (fetch_playback (_update_user fuel) u a) w1
  /\ db w1 = db w
  /\ exists later : list Event,
       trace (snd cycle)
       = later ++ EvGetPlayer (spotifyAccessToken u) :: trace w1.
Proof.
  intros w1 cycle Hexpired Hwindow Hempty. subst cycle.
  assert (Htest : spotify_token_expired u (clock w1) = false).
  { unfold spotify_token_expired. apply Z.leb_gt. lia. }
  rewrite run_update_user_S. cbv zeta. fold w1. rewrite Htest. cbn [andb].
  split; [reflexivity|]. split; [apply after_gate_db|].
  unfold fetch_playback. cbn [mbind Prog_bind bind perform run handle].
  match goal with
  | |- context [run env ?p ?w0] =>
      destruct (run_trace env p w0) as [later Hlater]
  end.
  exists later. rewrite Hlater. reflexivity.
Qed.

Lemma expired_token_without_refresh_token_is_kept_witness :
  let w := world_at (seconds 3660) [alice_without_refresh_token] in
  let cycle := run env_idle (_update_user 1 alice_without_refresh_token 1) w in
  spotifyExpiresAt alice_without_refresh_token + minutes 1 = clock w
  /\ spotifyRefreshToken alice_without_refresh_token = []
  /\ cycle = run env_idle
               (fetch_playback (_update_user 0) alice_without_refresh_token 1)
               w
  /\ trace (snd cycle)
     = [EvSleep (seconds 3);
        EvGetPlayer (spotifyAccessToken alice_without_refresh_token)]
  /\ db (snd cycle) !! id alice_without_refresh_token
     = Some alice_without_refresh_token.
Proof.
  intros w cycle.
  pose proof (expired_token_without_refresh_token_is_kept env_idle 0
                alice_without_refresh_token 1 w) as Hkept.
  cbv zeta in Hkept.
  destruct Hkept as (Hrun & _ & _);
    [vm_compute; discriminate | reflexivity | reflexivity |].
  split; [reflexivity|]. split; [reflexivity|]. split; [exact Hrun|].
  split; reflexivity.
Defined.

(** ** The retry of a throttled playback fetch *)

Lemma signal_threshold_representable now R :
  threshold_representable now R ->
  signal_threshold now R = Some (now + seconds (R + 2)).
Proof.
  intros [Hdelta [Hmin Hmax]]. unfold signal_threshold, timedelta_seconds.
  apply Z.leb_le in Hdelta. rewrite Hdelta.
  unfold datetime_add. apply Z.leb_le in Hmin, Hmax. rewrite Hmin, Hmax.
  reflexivity.
Qed.

Lemma signal_threshold_Some now R t :
  signal_threshold now R = Some t ->
  t = now + seconds (R + 2) /\ threshold_representable now R.
Proof.
  unfold signal_threshold, timedelta_seconds, datetime_add,
    threshold_representable.
  destruct (Z.abs _ <=? _) eqn:Hdelta; [|discriminate].
  destruct (datetime_min <=? _) eqn:Hmin; [|discriminate].
  destruct (_ <=? datetime_max) eqn:Hmax; [|discriminate].
  intros [= <-]. apply Z.leb_le in Hdelta, Hmin, Hmax. auto.
Qed.

Lemma signal_threshold_None now R :
  signal_threshold now R = None <-> ~ threshold_representable now R.
Proof.
  split.
  - intros Hnone Hrep.
    rewrite (signal_threshold_representable _ _ Hrep) in Hnone. discriminate.
  - intros Hnot. destruct (signal_threshold now R) as [t|] eqn:Hsome;
      [|reflexivity].
    apply signal_threshold_Some in Hsome as [_ Hrep]. contradiction.
Qed.




Section Termination.

Variable env : Env.
Variable N : nat.
Hypothesis eventually_unthrottled :
  forall n token err, (N <= n)%nat ->
    env_get_player env n token = inl err -> retry_after err = None.



End Termination.

Lemma fetches_after env {X} (e : Eff X) w :
  fetches (after env e w) = if is_GetPlayer e then S (fetches w) else fetches w.
Proof.
  unfold fetches. destruct e; open_world; try reflexivity.
  cbn. f_equal. apply store_status_fields.
Qed.

Lemma fetches_set_threshold t w : fetches (set_threshold t w) = fetches w.
Proof. reflexivity. Qed.

Lemma fetches_penalty w : fetches (status_penalty w) = fetches w.
Proof. reflexivity. Qed.


Ltac count_fetches :=
  cbn [snd];
  rewrite ?fetches_penalty, ?fetches_set_threshold, ?fetches_after;
  cbn [is_GetPlayer]; try reflexivity; try lia.








(** ** The shared threshold *)

Lemma above_after env {X} (e : Eff X) t w :
  is_await e = true -> above t w -> above t (after env e w).
Proof.
  intros Hawait [Hthr Hclock]. split.
  - rewrite after_threshold by assumption. exact Hthr.
  - pose proof (after_clock env e w). lia.
Qed.

Lemma above_penalty t w : above t w -> above t (status_penalty w).
Proof.
  intros [Hthr Hclock]. unfold above, status_penalty, set_threshold, seconds.
  cbn. lia.
Qed.

Lemma above_gate env w : above (UPDATE_THRESHOLD w) (after_gate env w).
Proof.
  unfold after_gate, above.
  destruct (0 <? UPDATE_THRESHOLD w - clock w) eqn:Hdelta.
  - apply Z.ltb_lt in Hdelta. open_world. lia.
  - apply Z.ltb_ge in Hdelta. lia.
Qed.

Lemma update_spotify_tokens_above env u w r w' t :
  run env (_update_spotify_tokens u) w = (r, w') -> above t w -> above t w'.
Proof.
  rewrite run_update_spotify_tokens. cbv zeta. intros Hrun Habove.
  destruct (env_get_new_access_token env _ _) as [err|ed].
  - destruct (in_set _ _); injection Hrun as _ <-;
      repeat (apply above_after; [reflexivity|]); exact Habove.
  - injection Hrun as _ <-.
    repeat (apply above_after; [reflexivity|]); exact Habove.
Qed.

Lemma set_user_status_above env u args b w r w' t :
  run env (_set_user_status u args b) w = (r, w') -> above t w -> above t w'.
Proof.
  rewrite run_set_user_status. cbv zeta. intros Hrun Habove.
  destruct (env_get_status env _ _ _) as [err|cp].
  { injection Hrun as _ <-. apply above_penalty.
    apply above_after; [reflexivity|exact Habove]. }
  destruct (getattr cp _) as [p|];
    [|injection Hrun as _ <-; apply above_after; [reflexivity|exact Habove]].
  destruct (getattr p _) as [text|];
    [|injection Hrun as _ <-; apply above_after; [reflexivity|exact Habove]].
  destruct (py_eq_str text _);
    [injection Hrun as _ <-; apply above_after; [reflexivity|exact Habove]|].
  destruct (env_set_status env _ _ _) as [err|d].
  { injection Hrun as _ <-. apply above_penalty.
    repeat (apply above_after; [reflexivity|]); exact Habove. }
  destruct (negb (ok d)).
  - destruct (in_set _ _); injection Hrun as _ <-;
      repeat (apply above_after; [reflexivity|]); exact Habove.
  - injection Hrun as _ <-.
    repeat (apply above_after; [reflexivity|]); exact Habove.
Qed.

Lemma reconcile_above env u player w r w' t :
  run env (reconcile u player) w = (r, w') -> above t w -> above t w'.
Proof.
  rewrite run_reconcile. intros Hrun Habove.
  destruct (desired_status env u player) as [[args b]|];
    [|injection Hrun as _ <-; exact Habove].
  destruct (run env (_set_user_status u args b) w) as [[x|e] w2] eqn:Hset;
    injection Hrun as _ <-;
    exact (set_user_status_above _ _ _ _ _ _ _ _ Hset Habove).
Qed.

Section Sequential.

Variable env : Env.
Hypothesis hints_from_minus_two :
  forall n token err R,
    env_get_player env n token = inl err -> retry_after err = Some R ->
    -2 <= R.

Lemma fetch_playback_threshold retry u a w r w' t :
  (forall u1 a1 w1 r1 w1',
     run env (retry u1 a1) w1 = (r1, w1') ->
     UPDATE_THRESHOLD w1 <= UPDATE_THRESHOLD w1') ->
  run env (fetch_playback retry u a) w = (r, w') ->
  above t w -> t <= UPDATE_THRESHOLD w'.
Proof.
  intros Hretry. rewrite run_fetch_playback. cbv zeta. intros Hrun Habove.
  assert (Hfetched : above t (after env (GetPlayer (spotifyAccessToken u)) w))
    by (apply above_after; [reflexivity|exact Habove]).
  destruct (env_get_player env _ _) as [err|player] eqn:Hreply.
  - destruct (retry_after err) as [R|] eqn:HR.
    + destruct (signal_threshold _ R) as [threshold|] eqn:Hsignal.
      * apply signal_threshold_Some in Hsignal as [-> _].
        apply Hretry in Hrun. unfold set_threshold in Hrun at 1.
        cbn [UPDATE_THRESHOLD] in Hrun.
        pose proof (hints_from_minus_two _ _ _ _ Hreply HR).
        destruct Hfetched as [_ Hclock]. unfold seconds in Hrun. lia.
      * injection Hrun as _ <-. apply Hfetched.
    + injection Hrun as _ <-. apply Hfetched.
  - destruct (run env (reconcile u player) _) as [[x|e] w2] eqn:Hrec;
      injection Hrun as _ <-;
      pose proof (reconcile_above _ _ _ _ _ _ _ Hrec Hfetched) as Hrecd.
    + apply (above_after env (Sleep (seconds 3))); [reflexivity|exact Hrecd].
    + apply Hrecd.
Qed.

Lemma update_user_threshold fuel : forall u a w r w',
  run env (_update_user fuel u a) w = (r, w') ->
  UPDATE_THRESHOLD w <= UPDATE_THRESHOLD w'.
Proof.
  induction fuel as [|fuel IH]; intros u a w r w'.
  { cbn. intros [= _ <-]. lia. }
  rewrite run_update_user_S. cbv zeta.
  pose proof (above_gate env w) as Hgate. intros Hrun.
  destruct (spotify_token_expired u _); cbn [andb] in Hrun.
  - destruct (negb _).
    + injection Hrun as _ <-.
      apply (above_after env (UserDelete (id u))); [reflexivity|exact Hgate].
    + destruct (run env (_update_spotify_tokens u) _)
        as [[[[] u2]|e] w2] eqn:Hrefresh;
        pose proof (update_spotify_tokens_above _ _ _ _ _ _ Hrefresh Hgate)
          as Hrefreshed.
      * exact (fetch_playback_threshold _ _ _ _ _ _ _ IH Hrun Hrefreshed).
      * injection Hrun as _ <-. apply Hrefreshed.
      * injection Hrun as _ <-. apply Hrefreshed.
  - exact (fetch_playback_threshold _ _ _ _ _ _ _ IH Hrun Hgate).
Qed.

End Sequential.

(** C1, as stated, fails: alice and bob are updated concurrently and both
    fetches are in flight.  The answer to alice (retry-after 100, at 1 s)
    sets the threshold to 103 s; the answer to bob (retry-after 0, at 2 s)
    then lowers it to 4 s. *)
Lemma concurrent_signal_lowers_threshold :
  let '(pool, w) :=
    start_all env_two_signals [_update_user 2 alice 1; _update_user 2 bob 1]
      (world_at 0 [alice; bob]) in
  thresholds env_two_signals [0; 1]%nat pool w = [seconds 103; seconds 4]
  /\ seconds 4 < seconds 103.
Proof. vm_compute. split; reflexivity. Qed.

(** C1, amended: a rate-limit signal with retry-after R, observed at time
    now, overwrites the shared threshold with now + R + 2 seconds when
    that is a representable time, and a transport error of the status
    fetch or write overwrites it with now + 6 seconds, whatever the
    threshold was: right after the signal it equals, hence reaches, that
    value.  When now + R + 2 is out of the range of timedelta or datetime,
    the update fails with an OverflowError and the threshold keeps its
    value.  The threshold is not compared with its current value.  Within
    one update run on its own, which waits out the threshold before it
    calls a collaborator, it never decreases, for every sequence of
    signals with R >= -2, the 6-second penalty included. *)
Theorem threshold_after_signal (env : Env) :
  (forall retry u a w err R,
     env_get_player env (tick w) (spotifyAccessToken u) = inl err ->
     retry_after err = Some R ->
     let w1 := after env (GetPlayer (spotifyAccessToken u)) w in
     (threshold_representable (clock w1) R ->
      exists w2 : World,
        run env (fetch_playback retry u a) w = run env (retry u (a + 1)) w2
        /\ clock w2 = clock w1
        /\ UPDATE_THRESHOLD w2 = clock w2 + seconds (R + 2))
     /\ (~ threshold_representable (clock w1) R ->
         run env (fetch_playback retry u a) w = (Raised OverflowError, w1)
         /\ UPDATE_THRESHOLD w1 = UPDATE_THRESHOLD w))
  /\ (forall u args b w err,
        env_get_status env (tick w) (slackAccessToken u)
          (stored_status w (slackAccessToken u)) = inl err ->
        exists w' : World,
          run env (_set_user_status u args b) w = (Returned (false, u), w')
          /\ UPDATE_THRESHOLD w' = clock w' + seconds 6)
  /\ (forall u args b w current_profile profile current_text err,
        env_get_status env (tick w) (slackAccessToken u)
          (stored_status w (slackAccessToken u)) = inr current_profile ->
        getattr current_profile (str "profile") = Some profile ->
        getattr profile (str "status_text") = Some current_text ->
        py_eq_str current_text (status_text args) = false ->
        env_set_status env
          (tick (after env (Sleep (seconds 1))
                   (after env (GetStatus (slackAccessToken u)) w)))
          args (slackAccessToken u) = inl err ->
        exists w' : World,
          run env (_set_user_status u args b) w = (Returned (false, u), w')
          /\ UPDATE_THRESHOLD w' = clock w' + seconds 6)
  /\ ((forall n token err R,
         env_get_player env n token = inl err -> retry_after err = Some R ->
         -2 <= R) ->
      forall fuel u a w r w',
        run env (_update_user fuel u a) w = (r, w') ->
        UPDATE_THRESHOLD w <= UPDATE_THRESHOLD w').
Proof.
  split; [|split; [|split]].
  - intros retry u a w err R Hreply HR w1. split.
    + intros Hrep. eexists. split.
      * rewrite run_fetch_playback. cbv zeta. rewrite Hreply, HR. fold w1.
        rewrite (signal_threshold_representable _ _ Hrep). reflexivity.
      * split; reflexivity.
    + intros Hnot. apply signal_threshold_None in Hnot.
      rewrite run_fetch_playback. cbv zeta. rewrite Hreply, HR. fold w1.
      rewrite Hnot. split; [reflexivity|].
      apply after_threshold. reflexivity.
  - intros u args b w err Hreply. eexists. split.
    + rewrite run_set_user_status. cbv zeta. rewrite Hreply. reflexivity.
    + reflexivity.
  - intros u args b w cp p text err Hreply Hprofile Htext Hdiff Hwrite.
    eexists. split.
    + rewrite run_set_user_status. cbv zeta.
      rewrite Hreply, Hprofile, Htext, Hdiff, Hwrite. reflexivity.
    + reflexivity.
  - intros Hhints fuel u a w r w'. apply (update_user_threshold env Hhints).
Qed.

Lemma threshold_after_signal_witness :
  (exists w1 : World,
     run env_two_signals (fetch_playback (_update_user 1) alice 1)
       (world_at 0 [alice])
     = run env_two_signals (_update_user 1 alice 2) w1
     /\ UPDATE_THRESHOLD w1 = clock w1 + seconds 102)
  /\ fst (run env_huge_hint (fetch_playback (_update_user 1) alice 1)
            (world_at 0 [alice])) = Raised OverflowError
  /\ (exists w' : World,
        run env_slack_down
          (_set_user_status alice
             {| status_text := str "Midnight by A, B";
                status_emoji := str ":headphones:";
                status_expiration := Some 0 |} true)
          (world_at 0 [alice]) = (Returned (false, alice), w')
        /\ UPDATE_THRESHOLD w' = clock w' + seconds 6)
  /\ UPDATE_THRESHOLD (world_at 0 [alice])
     <= UPDATE_THRESHOLD
          (snd (run env_two_signals (_update_user 3 alice 1)
                  (world_at 0 [alice]))).
Proof.
  split; [|split; [|split]].
  - destruct (threshold_after_signal env_two_signals) as (Hsignal & _).
    destruct (Hsignal (_update_user 1) alice 1 (world_at 0 [alice])
                (throttled 100) 100) as [Hin _];
      [reflexivity | reflexivity |].
    destruct Hin as (w1 & Hrun & _ & Hthr).
    + split; [|split]; vm_compute; discriminate.
    + exists w1. split; assumption.
  - destruct (threshold_after_signal env_huge_hint) as (Hsignal & _).
    destruct (Hsignal (_update_user 1) alice 1 (world_at 0 [alice])
                hinted_far_future 1000000000000) as [_ Hout];
      [reflexivity | reflexivity |].
    destruct Hout as [Hrun _].
    + intros (_ & _ & Hmax). vm_compute in Hmax. apply Hmax. reflexivity.
    + rewrite Hrun. reflexivity.
  - destruct (threshold_after_signal env_slack_down) as (_ & Hpenalty & _).
    apply (Hpenalty alice _ true (world_at 0 [alice]) SlackError).
    reflexivity.
  - destruct (threshold_after_signal env_two_signals) as (_ & _ & _ & Hmono).
    apply (Hmono) with (fuel := 3%nat) (u := alice) (a := 1)
      (r := fst (run env_two_signals (_update_user 3 alice 1)
                   (world_at 0 [alice]))).
    + intros n token err R. cbn. destruct (bool_decide _);
        intros [= <-] [= <-]; lia.
    + apply surjective_pairing.
Defined.

(** ** Writes to the platform *)

Lemma writes_after env {X} (e : Eff X) w :
  writes (after env e w) = if is_SetStatus e then S (writes w) else writes w.
Proof.
  unfold writes. destruct e; open_world; try reflexivity.
  cbn. f_equal. f_equal. apply store_status_fields.
Qed.

Lemma slack_after env {X} (e : Eff X) w :
  is_SetStatus e = false -> slack (after env e w) = slack w.
Proof. destruct e; cbn; try discriminate; reflexivity. Qed.

Lemma db_after env {X} (e : Eff X) w :
  changes_db e = false -> db (after env e w) = db w.
Proof.
  destruct e; cbn; try discriminate; intros _; open_world; try reflexivity.
  apply store_status_fields.
Qed.

Lemma stored_status_after env {X} (e : Eff X) w token :
  is_SetStatus e = false ->
  stored_status (after env e w) token = stored_status w token.
Proof. intros He. unfold stored_status. rewrite slack_after by exact He. reflexivity. Qed.

Lemma after_gate_writes env w : writes (after_gate env w) = writes w.
Proof. unfold after_gate. destruct (0 <? _); [apply writes_after|reflexivity]. Qed.

Lemma after_gate_slack env w : slack (after_gate env w) = slack w.
Proof. unfold after_gate. destruct (0 <? _); reflexivity. Qed.

Lemma apply_fields_id fs : forall u, id (apply_fields fs u) = id u.
Proof.
  unfold apply_fields.
  induction fs as [|f fs IH]; intros u; cbn; [reflexivity|].
  rewrite IH. destruct f; reflexivity.
Qed.

Lemma apply_fields_slackAccessToken fs : forall u,
  slackAccessToken (apply_fields fs u) = slackAccessToken u.
Proof.
  unfold apply_fields.
  induction fs as [|f fs IH]; intros u; cbn; [reflexivity|].
  rewrite IH. destruct f; reflexivity.
Qed.

Lemma handle_keyed env {X} (e : Eff X) w :
  keyed w -> keyed (snd (handle env e w)).
Proof.
  intros Hk. destruct e; cbn; try exact Hk; intros k v; open_world.
  - destruct (store_status_fields (env_set_status env (tick w) args token)
                args token w) as (_ & _ & -> & _). apply Hk.
  - intros [_ Hv]%lookup_delete_Some. exact (Hk _ _ Hv).
  - destruct (decide (uid = k)) as [->|Hne].
    + rewrite lookup_alter_eq.
      destruct (db w !! k) as [v0|] eqn:Hv0; cbn; [|discriminate].
      intros [= <-]. rewrite apply_fields_id. exact (Hk _ _ Hv0).
    + rewrite lookup_alter_ne by exact Hne. apply Hk.
Qed.

Lemma run_keyed {A} env (p : Prog A) : forall w,
  keyed w -> keyed (snd (run env p w)).
Proof.
  induction p as [a|e|X e k IH]; intros w Hk; cbn; try exact Hk.
  pose proof (handle_keyed env e w Hk) as Hk'.
  destruct (handle env e w) as [x w1]. apply IH. exact Hk'.
Qed.

Lemma getattr_profile_reply text :
  getattr (profile_reply text) (str "profile")
    = Some (PyObj [(str "status_text", PyStr text)])
  /\ getattr (PyObj [(str "status_text", PyStr text)]) (str "status_text")
    = Some (PyStr text).
Proof. split; reflexivity. Qed.

Lemma settled_transfer env player u w u2 w2 :
  statusSetLastTime u2 = statusSetLastTime u ->
  slackAccessToken u2 = slackAccessToken u ->
  slack w2 = slack w ->
  settled env player u w -> settled env player u2 w2.
Proof.
  intros Hflag Htoken Hslack Hsettled args b Hdesired.
  unfold stored_status. rewrite Htoken, Hslack.
  unfold desired_status in Hdesired. rewrite Hflag in Hdesired.
  destruct player as [[[track|] []]|];
    try (apply (Hsettled args b); exact Hdesired).
  injection Hdesired as <- <-.
  apply (Hsettled {| status_text := _calc_status_text track;
                     status_emoji := env_get_custom_emoji env u track;
                     status_expiration := Some 0 |} true).
  reflexivity.
Qed.

Lemma settled_after_write env player u args b u1 w1 :
  desired_status env u player = Some (args, b) ->
  statusSetLastTime u1 = b ->
  slackAccessToken u1 = slackAccessToken u ->
  stored_status w1 (slackAccessToken u) = status_text args ->
  settled env player u1 w1.
Proof.
  intros Hdesired Hflag Htoken Hstored args1 b1 Hdesired1.
  rewrite Htoken, Hstored.
  unfold desired_status in Hdesired, Hdesired1.
  destruct player as [[[track|] []]|];
    try (injection Hdesired as <- <-; injection Hdesired1 as <- <-;
         reflexivity);
    destruct (statusSetLastTime u); try discriminate;
    injection Hdesired as <- <-; rewrite Hflag in Hdesired1; discriminate.
Qed.

Section Idempotence.

Variable env : Env.
Variable player : option PlayerData.

Hypothesis snapshot_unchanged :
  forall n token, env_get_player env n token = inr player.
Hypothesis status_reported :
  forall n token text,
    (exists err, env_get_status env n token text = inl err)
    \/ env_get_status env n token text = inr (profile_reply text).
Hypothesis writes_accepted :
  forall n args token,
    exists d, env_set_status env n args token = inr d /\ ok d = true.

Lemma set_user_status_settled u args b w r w' :
  stored_status w (slackAccessToken u) = status_text args ->
  run env (_set_user_status u args b) w = (r, w') ->
  writes w' = writes w.
Proof.
  intros Hstored. rewrite run_set_user_status. cbv zeta.
  destruct (status_reported (tick w) (slackAccessToken u)
              (stored_status w (slackAccessToken u)))
    as [[err Hreply]|Hreply]; rewrite Hreply.
  - intros [= _ <-]. unfold status_penalty, set_threshold, writes.
    cbn [trace]. apply (writes_after env (GetStatus (slackAccessToken u))).
  - destruct (getattr_profile_reply (stored_status w (slackAccessToken u)))
      as [-> ->].
    cbn [py_eq_str]. rewrite bool_decide_eq_true_2 by exact Hstored.
    intros [= _ <-]. apply (writes_after env (GetStatus (slackAccessToken u))).
Qed.

Lemma set_user_status_outcome u args b w r w' :
  run env (_set_user_status u args b) w = (r, w') ->
  db w !! id u = Some u ->
  writes w' = writes w
  \/ (writes w' = S (writes w)
      /\ stored_status w' (slackAccessToken u) = status_text args
      /\ exists u1, db w' !! id u = Some u1
           /\ slackAccessToken u1 = slackAccessToken u
           /\ statusSetLastTime u1 = b).
Proof.
  rewrite run_set_user_status. cbv zeta. intros Hrun Hrow.
  destruct (env_get_status env _ _ _) as [err|cp].
  { left. injection Hrun as _ <-.
    unfold status_penalty, set_threshold, writes. cbn [trace].
    apply (writes_after env (GetStatus (slackAccessToken u))). }
  destruct (getattr cp _) as [p|];
    [|left; injection Hrun as _ <-;
      apply (writes_after env (GetStatus (slackAccessToken u)))].
  destruct (getattr p _) as [text|];
    [|left; injection Hrun as _ <-;
      apply (writes_after env (GetStatus (slackAccessToken u)))].
  destruct (py_eq_str text _);
    [left; injection Hrun as _ <-;
     apply (writes_after env (GetStatus (slackAccessToken u)))|].
  set (w1 := after env (GetStatus (slackAccessToken u)) w) in *.
  set (w2 := after env (Sleep (seconds 1)) w1) in *.
  destruct (writes_accepted (tick w2) args (slackAccessToken u))
    as (d & Hd & Hok).
  set (w3 := after env (SetStatus args (slackAccessToken u)) w2) in *.
  assert (Hslack3 : slack w3
            = <[slackAccessToken u := status_text args]> (slack w2)).
  { subst w3. unfold after. cbn [handle snd]. rewrite Hd.
    unfold store_status. rewrite Hok. reflexivity. }
  assert (Hdb3 : db w3 = db w).
  { subst w3. rewrite db_after by reflexivity. reflexivity. }
  assert (Hwrites3 : writes w3 = S (writes w)).
  { subst w3 w2 w1. rewrite !writes_after. reflexivity. }
  rewrite Hd, Hok in Hrun. cbn [negb] in Hrun. injection Hrun as _ <-.
  right. split; [|split].
  - rewrite writes_after. exact Hwrites3.
  - unfold stored_status. rewrite slack_after by reflexivity.
    rewrite Hslack3, lookup_insert_eq. reflexivity.
  - eexists. split; [|split].
    + open_world. rewrite lookup_alter_eq.
      fold w1 w2 w3. rewrite Hdb3, Hrow. reflexivity.
    + apply apply_fields_slackAccessToken.
    + reflexivity.
Qed.

Lemma reconcile_settled u w r w' :
  settled env player u w ->
  run env (reconcile u player) w = (r, w') ->
  writes w' = writes w.
Proof.
  intros Hsettled. rewrite run_reconcile.
  destruct (desired_status env u player) as [[args b]|] eqn:Hdesired;
    [|intros [= _ <-]; reflexivity].
  destruct (run env (_set_user_status u args b) w) as [[x|e] w2] eqn:Hset;
    intros [= _ <-];
    exact (set_user_status_settled _ _ _ _ _ _
             (Hsettled _ _ Hdesired) Hset).
Qed.

Lemma reconcile_outcome u w r w' :
  run env (reconcile u player) w = (r, w') ->
  db w !! id u = Some u ->
  writes w' = writes w
  \/ (writes w' = S (writes w)
      /\ exists u1, db w' !! id u = Some u1
           /\ slackAccessToken u1 = slackAccessToken u
           /\ settled env player u1 w').
Proof.
  rewrite run_reconcile. intros Hrun Hrow.
  destruct (desired_status env u player) as [[args b]|] eqn:Hdesired;
    [|left; injection Hrun as _ <-; reflexivity].
  destruct (run env (_set_user_status u args b) w) as [[x|e] w2] eqn:Hset;
    injection Hrun as _ <-;
    (destruct (set_user_status_outcome _ _ _ _ _ _ Hset Hrow)
       as [Hsame|(Hmore & Hstored & u1 & Hrow1 & Htoken & Hflag)];
     [left; exact Hsame|right]);
    (split; [exact Hmore|]); exists u1;
    (split; [exact Hrow1|]); (split; [exact Htoken|]);
    exact (settled_after_write _ _ _ _ _ _ _ Hdesired Hflag Htoken Hstored).
Qed.

Lemma fetch_playback_settled retry u a w r w' :
  settled env player u w ->
  run env (fetch_playback retry u a) w = (r, w') ->
  writes w' = writes w.
Proof.
  intros Hsettled. rewrite run_fetch_playback. cbv zeta.
  rewrite snapshot_unchanged.
  assert (Hfetched : settled env player u
                       (after env (GetPlayer (spotifyAccessToken u)) w))
    by (apply (settled_transfer _ _ u w); auto).
  destruct (run env (reconcile u player) _) as [[x|e] w2] eqn:Hrec;
    intros [= _ <-];
    pose proof (reconcile_settled _ _ _ _ Hfetched Hrec) as Hsame;
    rewrite ?writes_after in *; cbn [is_SetStatus] in *; exact Hsame.
Qed.

Lemma fetch_playback_outcome retry u a w r w' :
  run env (fetch_playback retry u a) w = (r, w') ->
  db w !! id u = Some u ->
  writes w' = writes w
  \/ (writes w' = S (writes w)
      /\ exists u1, db w' !! id u = Some u1
           /\ slackAccessToken u1 = slackAccessToken u
           /\ settled env player u1 w').
Proof.
  rewrite run_fetch_playback. cbv zeta. rewrite snapshot_unchanged.
  intros Hrun Hrow.
  destruct (run env (reconcile u player) _) as [[x|e] w2] eqn:Hrec;
    injection Hrun as _ <-;
    (destruct (reconcile_outcome _ _ _ _ Hrec Hrow)
       as [Hsame|(Hmore & u1 & Hrow1 & Htoken & Hsettled)]);
    rewrite ?writes_after in *; cbn [is_SetStatus] in *;
    try (left; exact Hsame);
    right; (split; [exact Hmore|]); exists u1.
  - split; [rewrite db_after by reflexivity; exact Hrow1|].
    split; [exact Htoken|].
    apply (settled_transfer _ _ u1 w2); auto.
  - auto.
Qed.

Lemma update_user_settled fuel u a w r w' :
  settled env player u w ->
  run env (_update_user fuel u a) w = (r, w') ->
  writes w' = writes w.
Proof.
  intros Hsettled. destruct fuel as [|fuel]; [intros [= _ <-]; reflexivity|].
  rewrite run_update_user_S. cbv zeta.
  assert (Hgate : settled env player u (after_gate env w))
    by (apply (settled_transfer _ _ u w); auto using after_gate_slack).
  pose proof (after_gate_writes env w) as Hwrites.
  destruct (spotify_token_expired u _); cbn [andb].
  - destruct (negb _).
    + intros [= _ <-]. rewrite writes_after. exact Hwrites.
    + rewrite run_update_spotify_tokens. cbv zeta.
      destruct (env_get_new_access_token env _ _) as [err|ed].
      * destruct (in_set _ _); intros [= _ <-];
          rewrite ?writes_after; exact Hwrites.
      * intros Hrun.
        apply fetch_playback_settled in Hrun.
        -- rewrite Hrun, !writes_after. exact Hwrites.
        -- apply (settled_transfer _ _ u (after_gate env w));
             [reflexivity | apply apply_fields_slackAccessToken
             | reflexivity | exact Hgate].
  - intros Hrun. apply fetch_playback_settled in Hrun; [|exact Hgate].
    rewrite Hrun. exact Hwrites.
Qed.

Lemma update_user_outcome fuel u a w r w' :
  run env (_update_user fuel u a) w = (r, w') ->
  db w !! id u = Some u ->
  writes w' = writes w
  \/ (writes w' = S (writes w)
      /\ exists u1, db w' !! id u = Some u1
           /\ slackAccessToken u1 = slackAccessToken u
           /\ settled env player u1 w').
Proof.
  destruct fuel as [|fuel]; [intros [= _ <-]; left; reflexivity|].
  rewrite run_update_user_S. cbv zeta. intros Hrun Hrow.
  pose proof (after_gate_writes env w) as Hwrites.
  pose proof (after_gate_db env w) as Hdb.
  destruct (spotify_token_expired u _); cbn [andb] in Hrun.
  - destruct (negb _).
    + left. injection Hrun as _ <-. rewrite writes_after. exact Hwrites.
    + rewrite run_update_spotify_tokens in Hrun. cbv zeta in Hrun.
      destruct (env_get_new_access_token env _ _) as [err|ed].
      * left. destruct (in_set _ _); injection Hrun as _ <-;
          rewrite ?writes_after; exact Hwrites.
      * apply fetch_playback_outcome in Hrun.
        -- rewrite !writes_after, Hwrites, apply_fields_id,
             apply_fields_slackAccessToken in Hrun. exact Hrun.
        -- rewrite apply_fields_id. open_world.
           rewrite lookup_alter_eq, Hdb, Hrow. reflexivity.
  - apply fetch_playback_outcome in Hrun.
    + rewrite Hwrites in Hrun. exact Hrun.
    + rewrite Hdb. exact Hrow.
Qed.

End Idempotence.

Lemma keyed_world_at now users : keyed (world_at now users).
Proof.
  intros k v Hrow. cbn [db world_at] in Hrow.
  apply elem_of_list_to_map_2 in Hrow.
  apply list_elem_of_fmap in Hrow as (u & [= -> ->] & _). reflexivity.
Qed.

(** C7, as stated, fails: Midnight keeps playing, the platform keeps
    reporting the same (empty) status and answers the write of the first
    cycle with ok = false; the second cycle, on the same snapshot and the
    same reported status, issues the write again. *)
Lemma rejected_write_is_repeated :
  let w0 := world_at 0 [alice] in
  let w1 := snd (run env_write_rejected (_update_user 1 alice 1) w0) in
  let w2 := snd (run env_write_rejected (_update_user 1 alice 1) w1) in
  db w1 !! id alice = Some alice
  /\ stored_status w1 (slackAccessToken alice)
     = stored_status w0 (slackAccessToken alice)
  /\ writes w0 = 0%nat /\ writes w1 = 1%nat /\ writes w2 = 2%nat.
Proof. vm_compute. repeat split; reflexivity. Qed.

(** C7, amended: no write is issued when the status text reported by the
    platform equals the desired text, and neither a fetch of the status
    nor a write when nothing is playing and statusSetLastTime is false.
    Hence, when the platform reports the text it stores and accepts the
    writes, two consecutive cycles on an unchanged playback snapshot issue
    at most one write between them: if the first cycle wrote, the second
    does not.  A write that failed is issued again by the next cycle. *)
Theorem reconciliation_writes_at_most_once (env : Env) :
  (forall u args b w current_profile profile current_text,
     env_get_status env (tick w) (slackAccessToken u)
       (stored_status w (slackAccessToken u)) = inr current_profile ->
     getattr current_profile (str "profile") = Some profile ->
     getattr profile (str "status_text") = Some current_text ->
     py_eq_str current_text (status_text args) = true ->
     writes (snd (run env (_set_user_status u args b) w)) = writes w)
  /\ (forall retry u a w player,
        env_get_player env (tick w) (spotifyAccessToken u) = inr player ->
        nothing_playing player ->
        statusSetLastTime u = false ->
        run env (fetch_playback retry u a) w
          = (Returned Completed,
             after env (Sleep (seconds 3))
               (after env (GetPlayer (spotifyAccessToken u)) w)))
  /\ (forall player,
        (forall n token, env_get_player env n token = inr player) ->
        (forall n token text,
           (exists err, env_get_status env n token text = inl err)
           \/ env_get_status env n token text = inr (profile_reply text)) ->
        (forall n args token,
           exists d, env_set_status env n args token = inr d /\ ok d = true) ->
        forall fuel1 fuel2 u a1 a2 w r1 w1 u1 r2 w2,
          keyed w ->
          db w !! id u = Some u ->
          run env (_update_user fuel1 u a1) w = (r1, w1) ->
          db w1 !! id u = Some u1 ->
          run env (_update_user fuel2 u1 a2) w1 = (r2, w2) ->
          (writes w2 <= S (writes w))%nat
          /\ (writes w1 = S (writes w) -> writes w2 = writes w1)).
Proof.
  split; [|split].
  - intros u args b w cp p text Hreply Hprofile Htext Heq.
    rewrite run_set_user_status. cbv zeta.
    rewrite Hreply, Hprofile, Htext, Heq. apply writes_after.
  - intros retry u a w player Hreply Hidle Hflag.
    rewrite run_fetch_playback. cbv zeta. rewrite Hreply, run_reconcile.
    assert (Hnone : desired_status env u player = None).
    { unfold desired_status. rewrite Hflag.
      destruct player as [[[track|] []]|]; cbn in Hidle; tauto. }
    rewrite Hnone. reflexivity.
  - intros player Hplayer Hstatus Hwrite
      fuel1 fuel2 u a1 a2 w r1 w1 u1 r2 w2 Hkeyed Hrow Hrun1 Hrow1 Hrun2.
    assert (Hkeyed1 : keyed w1).
    { pose proof (run_keyed env (_update_user fuel1 u a1) w Hkeyed) as Hk.
      rewrite Hrun1 in Hk. exact Hk. }
    pose proof (Hkeyed1 _ _ Hrow1) as Hid.
    assert (Hrow1' : db w1 !! id u1 = Some u1) by (rewrite Hid; exact Hrow1).
    destruct (update_user_outcome env player Hplayer Hwrite
                _ _ _ _ _ _ Hrun1 Hrow)
      as [Hsame|(Hmore & u1' & Hrow1'' & _ & Hsettled)].
    + split; [|lia].
      destruct (update_user_outcome env player Hplayer Hwrite
                  _ _ _ _ _ _ Hrun2 Hrow1') as [Hsame2|(Hmore2 & _)]; lia.
    + rewrite Hrow1 in Hrow1''. injection Hrow1'' as <-.
      pose proof (update_user_settled env player Hplayer Hstatus
                    _ _ _ _ _ _ Hsettled Hrun2) as Hsame2.
      split; [lia | intros _; exact Hsame2].
Qed.

Lemma reconciliation_writes_at_most_once_witness :
  let w0 := world_at 0 [alice] in
  let w1 := snd (run env_midnight (_update_user 1 alice 1) w0) in
  let u1 := apply_fields [StatusSetLastTime true; UpdatedAt (seconds 1)] alice in
  let w2 := snd (run env_midnight (_update_user 1 u1 1) w1) in
  writes w1 = 1%nat /\ writes w2 = writes w1.
Proof.
  intros w0 w1 u1 w2.
  assert (Hfirst : writes w1 = S (writes w0)) by reflexivity.
  split; [exact Hfirst|].
  destruct (reconciliation_writes_at_most_once env_midnight)
    as (_ & _ & Htwice).
  destruct (Htwice (playing Midnight)
              (fun _ _ => eq_refl)
              (fun _ _ _ => or_intror eq_refl)
              (fun _ _ _ => ex_intro _ accepted (conj eq_refl eq_refl))
              1%nat 1%nat alice 1 1 w0
              (fst (run env_midnight (_update_user 1 alice 1) w0)) w1 u1
              (fst (run env_midnight (_update_user 1 u1 1) w1)) w2)
    as [_ Hsecond].
  - apply keyed_world_at.
  - reflexivity.
  - apply surjective_pairing.
  - reflexivity.
  - apply surjective_pairing.
  - apply Hsecond. exact Hfirst.
Defined.

(** * Further properties of the worker *)

(** ** The status text, for every track *)

(** X1: whatever the track, the status text has at most 100 characters. *)
Theorem status_text_never_exceeds_100 (track : TrackItem) :
  (length (_calc_status_text track) <= 100)%nat.
Proof.
  rewrite calc_status_text_eq.
  destruct (100 <? length (full_status_text track))%nat eqn:Hlong.
  - rewrite length_app. cbn.
    pose proof (strip_length (take 99 (full_status_text track))) as Hstrip.
    rewrite length_take in Hstrip. lia.
  - apply Nat.ltb_ge in Hlong. exact Hlong.
Qed.

Lemma lstrip_suffix s : exists spaces, s = spaces ++ lstrip s.
Proof.
  induction s as [|c s [spaces IH]]; [exists []; reflexivity|].
  cbn. destruct (isspace c).
  - exists (c :: spaces). cbn. f_equal. exact IH.
  - exists []. reflexivity.
Qed.

Lemma lstrip_head s c : head (lstrip s) = Some c -> isspace c = false.
Proof.
  induction s as [|c' s IH]; cbn; [discriminate|].
  destruct (isspace c') eqn:Hc'; [exact IH|].
  cbn. intros [= <-]. exact Hc'.
Qed.

Lemma rstrip_prefix s : exists spaces, s = rstrip s ++ spaces.
Proof.
  unfold rstrip. destruct (lstrip_suffix (rev s)) as [spaces Hs].
  exists (rev spaces). rewrite <- rev_app_distr, <- Hs, rev_involutive.
  reflexivity.
Qed.

Lemma rstrip_last s c : last (rstrip s) = Some c -> isspace c = false.
Proof.
  unfold rstrip. intros Hlast. apply (lstrip_head (rev s)).
  rewrite <- (rev_involutive (lstrip (rev s))).
  destruct (rev (lstrip (rev s))) as [|x l] using rev_ind; [discriminate|].
  rewrite last_snoc in Hlast. injection Hlast as ->.
  rewrite rev_app_distr. reflexivity.
Qed.

Lemma strip_ends s c :
  (head (strip s) = Some c -> isspace c = false)
  /\ (last (strip s) = Some c -> isspace c = false).
Proof.
  unfold strip. split; [|apply rstrip_last].
  intros Hhead. apply (lstrip_head s).
  destruct (rstrip_prefix (lstrip s)) as [spaces Hs]. rewrite Hs.
  destruct (rstrip (lstrip s)); [discriminate|exact Hhead].
Qed.

(** X2: in a truncated status text no whitespace is left at the start
    nor right before the ellipsis. *)
Theorem truncated_text_has_no_outer_whitespace (track : TrackItem) :
  (100 < length (full_status_text track))%nat ->
  exists content : pystr,
    _calc_status_text track = content ++ ellipsis
    /\ (forall c, head content = Some c -> isspace c = false)
    /\ (forall c, last content = Some c -> isspace c = false).
Proof.
  intros Hlong. exists (strip (take 99 (full_status_text track))).
  rewrite calc_status_text_eq. apply Nat.ltb_lt in Hlong. rewrite Hlong.
  split; [reflexivity|]. split; intros c; apply strip_ends.
Qed.

Lemma truncated_text_has_no_outer_whitespace_witness :
  exists content : pystr,
    _calc_status_text track_with_space_at_99 = content ++ ellipsis
    /\ (forall c, last content = Some c -> isspace c = false).
Proof.
  destruct (truncated_text_has_no_outer_whitespace track_with_space_at_99)
    as (content & Heq & _ & Hlast).
  - apply Nat.ltb_lt. vm_compute. reflexivity.
  - exists content. split; assumption.
Defined.

(** ** The answers to a status write *)

Lemma in_set_token_revoked x :
  in_set x [str "token_revoked"] = true <-> x = Some (str "token_revoked").
Proof.
  unfold in_set. destruct x as [s|]; [|split; discriminate].
  rewrite bool_decide_eq_true, list_elem_of_singleton.
  split; [intros ->; reflexivity | intros [= ->]; reflexivity].
Qed.

(** X3: a write that the platform answers with ok = false makes
    [_set_user_status] return False after that one write, with the
    threshold and the stored status untouched; the user's row is deleted
    if the error is "token_revoked", and no row changes otherwise. *)
Theorem rejected_write_deletes_only_on_revoked_token
    (env : Env) (u : User) (args : UserProfileArgs) (b : bool) (w : World)
    (current_profile profile current_text : pyval) (d : UserProfileData) :
  let token := slackAccessToken u in
  let w2 := after env (Sleep (seconds 1)) (after env (GetStatus token) w) in
  env_get_status env (tick w) token (stored_status w token)
    = inr current_profile ->
  getattr current_profile (str "profile") = Some profile ->
  getattr profile (str "status_text") = Some current_text ->
  py_eq_str current_text (status_text args) = false ->
  env_set_status env (tick w2) args token = inr d ->
  ok d = false ->
  exists w' : World,
    run env (_set_user_status u args b) w = (Returned (false, u), w')
    /\ UPDATE_THRESHOLD w' = UPDATE_THRESHOLD w
    /\ slack w' = slack w
    /\ writes w' = S (writes w)
    /\ (error d = Some (str "token_revoked") ->
        db w' = delete (id u) (db w))
    /\ (error d <> Some (str "token_revoked") -> db w' = db w).
Proof.
  intros token w2 Hreply Hprofile Htext Hdiff Hwrite Hok.
  rewrite run_set_user_status. cbv zeta. fold token. fold w2.
  rewrite Hreply, Hprofile, Htext, Hdiff, Hwrite, Hok. cbn [negb].
  set (w3 := after env (SetStatus args token) w2).
  assert (Hw3 : UPDATE_THRESHOLD w3 = UPDATE_THRESHOLD w
                /\ slack w3 = slack w /\ db w3 = db w
                /\ writes w3 = S (writes w)).
  { split; [|split; [|split]].
    - subst w3 w2. rewrite !after_threshold by reflexivity. reflexivity.
    - subst w3. unfold after at 1. cbn [handle snd]. rewrite Hwrite.
      unfold store_status. rewrite Hok. reflexivity.
    - subst w3 w2. rewrite db_after by reflexivity. reflexivity.
    - subst w3 w2. rewrite !writes_after. reflexivity. }
  destruct Hw3 as (Hthr & Hslack & Hdb & Hwrites).
  eexists. split; [reflexivity|].
  destruct (in_set (error d) [str "token_revoked"]) eqn:Hin.
  - apply in_set_token_revoked in Hin.
    rewrite after_threshold, slack_after, writes_after by reflexivity.
    repeat split; try assumption.
    + intros _. open_world. fold w3. rewrite Hdb. reflexivity.
    + intros Hne. contradiction.
  - repeat split; try assumption.
    + intros Hrevoked. apply in_set_token_revoked in Hrevoked. congruence.
    + intros _. exact Hdb.
Qed.

Lemma rejected_write_deletes_only_on_revoked_token_witness :
  exists w' : World,
    run env_write_rejected
      (_set_user_status alice
         {| status_text := str "Midnight by A, B";
            status_emoji := str ":headphones:";
            status_expiration := Some 0 |} true)
      (world_at 0 [alice]) = (Returned (false, alice), w')
    /\ db w' = db (world_at 0 [alice]).
Proof.
  destruct (rejected_write_deletes_only_on_revoked_token env_write_rejected
              alice
              {| status_text := str "Midnight by A, B";
                 status_emoji := str ":headphones:";
                 status_expiration := Some 0 |} true (world_at 0 [alice])
              (profile_reply (str ""))
              (PyObj [(str "status_text", PyStr (str ""))])
              (PyStr (str "")) (rejected "ratelimited"))
    as (w' & Hrun & _ & _ & _ & _ & Hkept);
    [reflexivity | reflexivity | reflexivity | reflexivity | reflexivity
    | reflexivity |].
  exists w'. split; [exact Hrun|]. apply Hkept. discriminate.
Defined.

(** X4: a write that the platform accepts makes [_set_user_status] return
    True; the user object and the user's row get statusSetLastTime as
    passed and updatedAt at the time of the answer, every other field is
    kept, and the threshold is untouched. *)
Theorem accepted_write_records_status
    (env : Env) (u : User) (args : UserProfileArgs) (b : bool) (w : World)
    (current_profile profile current_text : pyval) (d : UserProfileData) :
  let token := slackAccessToken u in
  let w2 := after env (Sleep (seconds 1)) (after env (GetStatus token) w) in
  let w3 := after env (SetStatus args token) w2 in
  env_get_status env (tick w) token (stored_status w token)
    = inr current_profile ->
  getattr current_profile (str "profile") = Some profile ->
  getattr profile (str "status_text") = Some current_text ->
  py_eq_str current_text (status_text args) = false ->
  env_set_status env (tick w2) args token = inr d ->
  ok d = true ->
  db w !! id u = Some u ->
  exists (u' : User) (w' : World),
    run env (_set_user_status u args b) w = (Returned (true, u'), w')
    /\ u' = set_field (UpdatedAt (clock w3))
              (set_field (StatusSetLastTime b) u)
    /\ db w' = <[id u := u']> (db w)
    /\ stored_status w' token = status_text args
    /\ UPDATE_THRESHOLD w' = UPDATE_THRESHOLD w
    /\ writes w' = S (writes w).
Proof.
  intros token w2 w3 Hreply Hprofile Htext Hdiff Hwrite Hok Hrow.
  rewrite run_set_user_status. cbv zeta. fold token. fold w2. fold w3.
  rewrite Hreply, Hprofile, Htext, Hdiff, Hwrite, Hok. cbn [negb].
  assert (Hdb3 : db w3 = db w)
    by (subst w3 w2; rewrite db_after by reflexivity; reflexivity).
  assert (Hslack3 : slack w3 = <[token := status_text args]> (slack w)).
  { subst w3. unfold after. cbn [handle snd]. rewrite Hwrite.
    unfold store_status. rewrite Hok. reflexivity. }
  eexists _, _. split; [reflexivity|]. split; [reflexivity|].
  split; [|split; [|split]].
  - open_world. fold w3. rewrite Hdb3.
    apply map_eq. intros k. destruct (decide (id u = k)) as [<-|Hne].
    + rewrite lookup_alter_eq, lookup_insert_eq, Hrow. reflexivity.
    + rewrite lookup_alter_ne, lookup_insert_ne by exact Hne. reflexivity.
  - unfold stored_status. rewrite slack_after by reflexivity.
    rewrite Hslack3, lookup_insert_eq. reflexivity.
  - subst w3 w2. rewrite !after_threshold by reflexivity. reflexivity.
  - subst w3 w2. rewrite !writes_after. reflexivity.
Qed.

Lemma accepted_write_records_status_witness :
  exists (u' : User) (w' : World),
    run env_midnight
      (_set_user_status alice
         {| status_text := str "Midnight by A, B";
            status_emoji := str ":headphones:";
            status_expiration := Some 0 |} true)
      (world_at 0 [alice]) = (Returned (true, u'), w')
    /\ statusSetLastTime u' = true
    /\ db w' !! id alice = Some u'.
Proof.
  destruct (accepted_write_records_status env_midnight alice
              {| status_text := str "Midnight by A, B";
                 status_emoji := str ":headphones:";
                 status_expiration := Some 0 |} true (world_at 0 [alice])
              (profile_reply (str ""))
              (PyObj [(str "status_text", PyStr (str ""))])
              (PyStr (str "")) accepted)
    as (u' & w' & Hrun & Hu' & Hdb & _);
    [reflexivity | reflexivity | reflexivity | reflexivity | reflexivity
    | reflexivity | reflexivity |].
  exists u', w'. split; [exact Hrun|]. split.
  - rewrite Hu'. reflexivity.
  - rewrite Hdb. apply lookup_insert_eq.
Defined.

(** X5: the calls of [_set_user_status], in every case: the status is
    fetched first; a write, if any, comes after a pause of one second, is
    the only write, carries the arguments passed and goes to the user's
    token; after the write at most one more call follows, the deletion or
    the update of the user's own row. *)
Theorem status_write_follows_fetch_and_pause
    (env : Env) (u : User) (args : UserProfileArgs) (b : bool) (w : World) :
  let token := slackAccessToken u in
  let w' := snd (run env (_set_user_status u args b) w) in
  trace w' = EvGetStatus token :: trace w
  \/ exists last : list Event,
       trace w' = last ++ EvSetStatus args token :: EvSleep (seconds 1)
                    :: EvGetStatus token :: trace w
       /\ (last = [] \/ last = [EvDelete (id u)]
           \/ exists now,
                last = [EvUpdate (id u) [StatusSetLastTime b; UpdatedAt now]]).
Proof.
  intros token w'. subst w'. rewrite run_set_user_status. cbv zeta. fold token.
  assert (Htrace3 :
    trace (after env (SetStatus args token)
             (after env (Sleep (seconds 1)) (after env (GetStatus token) w)))
    = EvSetStatus args token :: EvSleep (seconds 1)
        :: EvGetStatus token :: trace w).
  { open_world. f_equal. apply store_status_fields. }
  destruct (env_get_status env _ _ _) as [err|cp]; [left; reflexivity|].
  destruct (getattr cp _) as [p|]; [|left; reflexivity].
  destruct (getattr p _) as [text|]; [|left; reflexivity].
  destruct (py_eq_str text _); [left; reflexivity|].
  right. destruct (env_set_status env _ _ _) as [err|d].
  { exists []. split; [exact Htrace3 | left; reflexivity]. }
  destruct (negb (ok d)).
  - destruct (in_set _ _).
    + exists [EvDelete (id u)]. split; [|right; left; reflexivity].
      cbn [snd]. unfold after at 1. cbn [handle snd]. unfold awaited at 1.
      cbn [trace]. unfold set_db. cbn [trace]. rewrite Htrace3. reflexivity.
    + exists []. split; [exact Htrace3 | left; reflexivity].
  - eexists [_]. split; [|right; right; eexists; reflexivity].
    cbn [snd]. unfold after at 1. cbn [handle snd]. unfold awaited at 1.
    cbn [trace]. unfold set_db. cbn [trace]. rewrite Htrace3. reflexivity.
Qed.

(** ** What one update may touch *)

Lemma confined_bind uid token {A B} (Q : A -> Prop) (R : B -> Prop)
    (p : Prog A) (f : A -> Prog B) :
  confined uid token Q p ->
  (forall a, Q a -> confined uid token R (f a)) ->
  confined uid token R (p ≫= f).
Proof.
  intros Hp Hf. induction p as [a|e|X e k IH]; cbn in *.
  - apply Hf, Hp.
  - exact I.
  - destruct Hp as [He Hk]. split; [exact He|]. intros x. apply IH, Hk.
Qed.

Lemma update_spotify_tokens_confined u :
  confined (id u) (slackAccessToken u) (same_owner u)
    (_update_spotify_tokens u).
Proof.
  unfold _update_spotify_tokens. cbn. split; [exact I|]. intros [err|ed].
  - destruct (in_set _ _); cbn; repeat split.
  - cbn. repeat split.
Qed.

Lemma set_user_status_confined u args b :
  confined (id u) (slackAccessToken u) (same_owner u)
    (_set_user_status u args b).
Proof.
  unfold _set_user_status. cbn. split; [reflexivity|]. intros [err|cp].
  { cbn. repeat split. }
  unfold attribute.
  destruct (getattr cp _) as [p|]; cbn; [|exact I].
  destruct (getattr p _) as [text|]; cbn; [|exact I].
  destruct (py_eq_str text _); cbn; [repeat split|].
  split; [exact I|]. intros _. split; [reflexivity|]. intros [err|d].
  { cbn. repeat split. }
  destruct (ok d); cbn.
  - repeat split.
  - destruct (in_set _ _); cbn; repeat split.
Qed.

Lemma reconcile_confined u player :
  confined (id u) (slackAccessToken u) (fun _ => True) (reconcile u player).
Proof.
  unfold reconcile.
  destruct player as [[[track|] []]|]; cbn;
    try (destruct (statusSetLastTime u); [|exact I]);
    try (split; [exact I|]; intros emoji);
    apply (confined_bind _ _ (same_owner u));
    try apply set_user_status_confined; intros; exact I.
Qed.

Lemma fetch_playback_confined retry u a :
  (forall a', confined (id u) (slackAccessToken u) (fun _ => True)
                (retry u a')) ->
  confined (id u) (slackAccessToken u) (fun _ => True)
    (fetch_playback retry u a).
Proof.
  intros Hretry. unfold fetch_playback. cbn. split; [exact I|].
  intros [err|player].
  - destruct (retry_after err) as [R|]; cbn; [|exact I].
    split; [exact I|]. intros now.
    destruct (timedelta_seconds (R + 2)) as [delta|]; cbn; [|exact I].
    destruct (datetime_add now delta); cbn; [|exact I].
    split; [exact I|]. intros _. apply Hretry.
  - apply (confined_bind _ _ (fun _ => True)); [apply reconcile_confined|].
    intros _ _. cbn. repeat split.
Qed.

Lemma update_user_confined fuel : forall u a,
  confined (id u) (slackAccessToken u) (fun _ => True)
    (_update_user fuel u a).
Proof.
  induction fuel as [|fuel IH]; intros u a; [exact I|].
  change (_update_user (S fuel) u a) with
    (threshold ← perform ReadThreshold;
     now ← perform Now;
     (if 0 <? threshold - now
      then jitter ← perform Random; perform (Sleep (threshold - now + jitter))
      else mret tt);;
     now ← perform Now;
     if spotify_token_expired u now && negb (truthy (spotifyRefreshToken u))
     then perform (UserDelete (id u));; mret Completed
     else
       refreshed ← (if spotify_token_expired u now
                    then _update_spotify_tokens u else mret (true, u));
       let '(update_ok, user) := refreshed in
       if negb update_ok then mret Completed
       else fetch_playback (_update_user fuel) user a).
  cbn. split; [exact I|]. intros threshold. split; [exact I|]. intros now.
  apply (confined_bind _ _ (fun _ => True)).
  { destruct (0 <? threshold - now); cbn; repeat split. }
  intros _ _. cbn. split; [exact I|]. intros now'.
  destruct (spotify_token_expired u now' && _); [cbn; repeat split|].
  apply (confined_bind _ _ (same_owner u)).
  { destruct (spotify_token_expired u now');
      [apply update_spotify_tokens_confined | cbn; split; reflexivity]. }
  intros [update_ok user] [Hid Htoken]. cbn in Hid, Htoken.
  destruct update_ok; cbn; [|exact I].
  rewrite <- Hid, <- Htoken. apply fetch_playback_confined.
  intros a'. apply IH.
Qed.

Lemma untouched_except_refl uid token w : untouched_except uid token w w.
Proof. split; reflexivity. Qed.

Lemma untouched_except_trans uid token w1 w2 w3 :
  untouched_except uid token w1 w2 -> untouched_except uid token w2 w3 ->
  untouched_except uid token w1 w3.
Proof.
  intros [Hdb1 Hslack1] [Hdb2 Hslack2]. split; intros k Hk.
  - rewrite Hdb2, Hdb1 by exact Hk. reflexivity.
  - rewrite Hslack2, Hslack1 by exact Hk. reflexivity.
Qed.

Lemma handle_untouched env uid token {X} (e : Eff X) w :
  own_eff uid token e ->
  untouched_except uid token w (snd (handle env e w)).
Proof.
  destruct e as [| | | t |usr trk| d | tk | tk g | tk | args tk | k | k fs];
    cbn; intros Hown; try (split; reflexivity).
  - subst tk. unfold awaited, store_status.
    destruct (env_set_status env (tick w) args token) as [err|d];
      [split; reflexivity|].
    destruct (ok d); [|split; reflexivity].
    split; cbn; [reflexivity|]. intros t Ht.
    apply lookup_insert_ne. congruence.
  - subst k. split; cbn; [|reflexivity]. intros k Hk.
    apply lookup_delete_ne. congruence.
  - subst k. split; cbn; [|reflexivity]. intros k Hk.
    apply lookup_alter_ne. congruence.
Qed.

Lemma run_untouched {A} env uid token (Q : A -> Prop) (p : Prog A) :
  forall w, confined uid token Q p ->
    untouched_except uid token w (snd (run env p w)).
Proof.
  induction p as [a|e|X e k IH]; intros w Hp; cbn;
    try apply untouched_except_refl.
  destruct Hp as [He Hk].
  pose proof (handle_untouched env uid token e w He) as H1.
  destruct (handle env e w) as [x w1]. cbn in H1.
  exact (untouched_except_trans _ _ _ _ _ H1 (IH x w1 (Hk x))).
Qed.

(** X6: whatever the collaborators answer and however often the fetch is
    retried, the update of one user deletes or updates no row but this
    user's, and changes no stored status but the one of this user's
    platform token. *)
Theorem update_touches_only_its_user
    (env : Env) (fuel : nat) (u : User) (a : Z) (w : World) :
  untouched_except (id u) (slackAccessToken u) w
    (snd (run env (_update_user fuel u a) w)).
Proof.
  apply (run_untouched env _ _ (fun _ => True)). apply update_user_confined.
Qed.

(** ** Updates interleaved on the event loop *)

Lemma advance_confined {A} env uid token (Q : A -> Prop) (p : Prog A) :
  forall w, confined uid token Q p ->
    confined uid token Q (fst (advance env p w))
    /\ untouched_except uid token w (snd (advance env p w)).
Proof.
  induction p as [a|e|X e k IH]; intros w Hp; cbn;
    try (split; [exact Hp | apply untouched_except_refl]).
  destruct (is_await e);
    [split; [exact Hp | apply untouched_except_refl]|].
  destruct Hp as [He Hk].
  pose proof (handle_untouched env uid token e w He) as H1.
  destruct (handle env e w) as [x w1]. cbn in H1.
  destruct (IH x w1 (Hk x)) as [Hc H2].
  split; [exact Hc | exact (untouched_except_trans _ _ _ _ _ H1 H2)].
Qed.

Lemma resume_confined {A} env uid token (Q : A -> Prop) (p : Prog A) w :
  confined uid token Q p ->
  confined uid token Q (fst (resume env p w))
  /\ untouched_except uid token w (snd (resume env p w)).
Proof.
  destruct p as [a|e|X e k]; cbn;
    try (intros Hp; split; [exact Hp | apply untouched_except_refl]).
  intros [He Hk].
  pose proof (handle_untouched env uid token e w He) as H1.
  destruct (handle env e w) as [x w1]. cbn in H1.
  destruct (advance_confined env uid token Q (k x) w1 (Hk x)) as [Hc H2].
  split; [exact Hc | exact (untouched_except_trans _ _ _ _ _ H1 H2)].
Qed.

Lemma others_untouched_refl users w : others_untouched users w w.
Proof. split; reflexivity. Qed.

Lemma others_untouched_trans users w1 w2 w3 :
  others_untouched users w1 w2 -> others_untouched users w2 w3 ->
  others_untouched users w1 w3.
Proof.
  intros [Hdb1 Hslack1] [Hdb2 Hslack2]. split; intros k Hk.
  - rewrite Hdb2, Hdb1 by exact Hk. reflexivity.
  - rewrite Hslack2, Hslack1 by exact Hk. reflexivity.
Qed.

Lemma others_untouched_member users u w w' :
  u ∈ users ->
  untouched_except (id u) (slackAccessToken u) w w' ->
  others_untouched users w w'.
Proof.
  intros Hu [Hdb Hslack]. split; intros k Hk.
  - apply Hdb. intros ->. exact (Hk u Hu eq_refl).
  - apply Hslack. intros ->. exact (Hk u Hu eq_refl).
Qed.

Lemma others_untouched_more u users w w' :
  others_untouched users w w' -> others_untouched (u :: users) w w'.
Proof.
  intros [Hdb Hslack]. split; intros k Hk.
  - apply Hdb. intros u' Hu'. apply Hk. right. exact Hu'.
  - apply Hslack. intros u' Hu'. apply Hk. right. exact Hu'.
Qed.

Section Pool.

Variable env : Env.

Lemma resume_nth_pool users pool i w :
  Forall2 task_of users pool ->
  Forall2 task_of users (fst (resume_nth env i pool w))
  /\ others_untouched users w (snd (resume_nth env i pool w)).
Proof.
  intros Hpool. unfold resume_nth.
  destruct (pool !! i) as [p|] eqn:Hp;
    [|split; [exact Hpool | apply others_untouched_refl]].
  destruct (Forall2_lookup_r _ _ _ _ _ Hpool Hp) as (u & Hu & Htask).
  destruct (resume_confined env _ _ _ p w Htask) as [Hc Hw].
  destruct (resume env p w) as [p' w']. cbn in *. split.
  - rewrite <- (list_insert_id users i u Hu).
    apply Forall2_insert; assumption.
  - apply (others_untouched_member users u); [|exact Hw].
    apply list_elem_of_lookup. exists i. exact Hu.
Qed.

Lemma run_schedule_pool schedule : forall users pool w,
  Forall2 task_of users pool ->
  others_untouched users w (snd (run_schedule env schedule pool w)).
Proof.
  induction schedule as [|i rest IH]; intros users pool w Hpool; cbn;
    [apply others_untouched_refl|].
  destruct (resume_nth_pool users pool i w Hpool) as [Hpool' Hw].
  destruct (resume_nth env i pool w) as [pool' w']. cbn in *.
  exact (others_untouched_trans _ _ _ _ Hw (IH _ _ _ Hpool')).
Qed.

Lemma start_all_pool users : forall pool w,
  Forall2 task_of users pool ->
  Forall2 task_of users (fst (start_all env pool w))
  /\ others_untouched users w (snd (start_all env pool w)).
Proof.
  induction users as [|u users IH]; intros pool w Hpool;
    inversion Hpool as [|u' p users' pool' Htask Hrest]; subst; cbn.
  { split; [constructor | apply others_untouched_refl]. }
  destruct (advance_confined env _ _ _ p w Htask) as [Hc Hw].
  destruct (advance env p w) as [p' w1]. cbn in *.
  destruct (IH pool' w1 Hrest) as [Hpool1 Hw1].
  destruct (start_all env pool' w1) as [rest' w2]. cbn in *. split.
  - constructor; assumption.
  - apply (others_untouched_trans _ _ w1).
    + apply (others_untouched_member _ u); [left|exact Hw].
    + apply others_untouched_more. exact Hw1.
Qed.

Lemma update_tasks_pool fuel users :
  Forall2 task_of users (update_tasks fuel users).
Proof.
  unfold update_tasks. induction users as [|u users IH]; cbn; constructor;
    [apply update_user_confined | exact IH].
Qed.

End Pool.

(** X7: when the updates of several users run interleaved on the event
    loop, in whatever order they are resumed at their awaits, the rows and
    the stored statuses of all other users stay as they were. *)
Theorem interleaved_updates_touch_only_their_users
    (env : Env) (fuel : nat) (users : list User) (schedule : list nat)
    (w : World) :
  let started := start_all env (update_tasks fuel users) w in
  others_untouched users w
    (snd (run_schedule env schedule (fst started) (snd started))).
Proof.
  intros started.
  destruct (start_all_pool env users (update_tasks fuel users) w
              (update_tasks_pool fuel users)) as [Hpool Hw].
  fold started in Hpool, Hw.
  exact (others_untouched_trans _ _ _ _ Hw
           (run_schedule_pool env schedule users _ _ Hpool)).
Qed.

(** ** One cycle of [_update_user] *)

(** X8: from a playback fetch on that reports nothing playing, for a user
    whose statusSetLastTime is true: when the platform reports a non-empty
    status and accepts the write, the rest of the cycle issues exactly one
    write, with empty text and emoji, records statusSetLastTime = false in
    the user's row and ends with its pause of three seconds.  This holds
    at every playback fetch of a cycle, after a refresh or a retry as
    well. *)
Theorem stopped_playback_clears_status
    (env : Env) (retry : User -> Z -> Prog Completion) (u : User) (a : Z)
    (w : World) (player : option PlayerData) (text : pystr)
    (d : UserProfileData) :
  let token := slackAccessToken u in
  let empty := {| status_text := str ""; status_emoji := str "";
                  status_expiration := Some 0 |} in
  let w2 := after env (GetPlayer (spotifyAccessToken u)) w in
  let w3 := after env (Sleep (seconds 1)) (after env (GetStatus token) w2) in
  let w4 := after env (SetStatus empty token) w3 in
  env_get_player env (tick w) (spotifyAccessToken u) = inr player ->
  nothing_playing player ->
  statusSetLastTime u = true ->
  env_get_status env (tick w2) token (stored_status w2 token)
    = inr (profile_reply text) ->
  text <> [] ->
  env_set_status env (tick w3) empty token = inr d ->
  ok d = true ->
  db w !! id u = Some u ->
  exists w' : World,
    run env (fetch_playback retry u a) w = (Returned Completed, w')
    /\ trace w'
       = EvSleep (seconds 3)
           :: EvUpdate (id u) [StatusSetLastTime false; UpdatedAt (clock w4)]
           :: EvSetStatus empty token :: EvSleep (seconds 1)
           :: EvGetStatus token :: EvGetPlayer (spotifyAccessToken u)
           :: trace w
    /\ statusSetLastTime <$> db w' !! id u = Some false
    /\ stored_status w' token = str "".
Proof.
  intros token empty w2 w3 w4 Hplayer Hidle Hflag Hstatus Htext
    Hwrite Hok Hrow.
  rewrite run_fetch_playback. cbv zeta. rewrite Hplayer. fold w2.
  rewrite run_reconcile.
  assert (Hdesired : desired_status env u player = Some (empty, false)).
  { unfold desired_status. rewrite Hflag.
    destruct player as [[[track|] []]|]; cbn in Hidle; tauto. }
  rewrite Hdesired, run_set_user_status. cbv zeta. fold token.
  rewrite Hstatus.
  destruct (getattr_profile_reply text) as [-> ->].
  assert (Hdiff : py_eq_str (PyStr text) (status_text empty) = false).
  { cbn. apply bool_decide_eq_false_2. exact Htext. }
  rewrite Hdiff. fold w3. rewrite Hwrite, Hok. cbn [negb]. fold w4.
  assert (Htrace4 : trace w4
            = EvSetStatus empty token :: EvSleep (seconds 1)
                :: EvGetStatus token :: EvGetPlayer (spotifyAccessToken u)
                :: trace w).
  { subst w4 w3 w2. open_world. f_equal. apply store_status_fields. }
  assert (Hdb4 : db w4 = db w).
  { subst w4 w3 w2. rewrite !db_after by reflexivity. reflexivity. }
  assert (Hslack4 : slack w4 = <[token := str ""]> (slack w3)).
  { subst w4. unfold after at 1. cbn [handle snd]. rewrite Hwrite.
    unfold store_status. rewrite Hok. reflexivity. }
  eexists. split; [reflexivity|]. split; [|split].
  - open_world. fold w4. rewrite Htrace4. reflexivity.
  - open_world. fold w4. rewrite lookup_alter_eq, Hdb4, Hrow. reflexivity.
  - unfold stored_status. rewrite !slack_after by reflexivity.
    rewrite Hslack4, lookup_insert_eq. reflexivity.
Qed.

Lemma stopped_playback_clears_status_witness :
  exists w' : World,
    run env_idle (fetch_playback (_update_user 0) bob_with_status 1)
      (world_with_status 0 bob_with_status (str "Midnight by A, B"))
    = (Returned Completed, w')
    /\ statusSetLastTime <$> db w' !! id bob = Some false
    /\ stored_status w' (slackAccessToken bob) = str "".
Proof.
  destruct (stopped_playback_clears_status env_idle (_update_user 0)
              bob_with_status 1
              (world_with_status 0 bob_with_status (str "Midnight by A, B"))
              None (str "Midnight by A, B") accepted)
    as (w' & Hrun & _ & Hflag & Hstored);
    [reflexivity | exact I | reflexivity | reflexivity
    | discriminate | reflexivity | reflexivity | reflexivity |].
  exists w'. repeat split; assumption.
Defined.

(** X9: a playback fetch that fails without a retry-after hint ends the
    cycle on the spot: after the fetch there is no retry, whatever depth
    is left, no status call and no pause of three seconds, and rows,
    stored statuses and threshold are as they were when the fetch was
    issued.  This holds at every playback fetch of a cycle, after a
    refresh or a retry as well. *)
Theorem unhinted_fetch_error_ends_cycle
    (env : Env) (retry : User -> Z -> Prog Completion) (u : User) (a : Z)
    (w : World) (err : SpotifyApiError) :
  env_get_player env (tick w) (spotifyAccessToken u) = inl err ->
  retry_after err = None ->
  exists w' : World,
    run env (fetch_playback retry u a) w = (Returned Completed, w')
    /\ trace w' = EvGetPlayer (spotifyAccessToken u) :: trace w
    /\ db w' = db w /\ slack w' = slack w
    /\ UPDATE_THRESHOLD w' = UPDATE_THRESHOLD w.
Proof.
  intros Hplayer Hhint.
  rewrite run_fetch_playback. cbv zeta. rewrite Hplayer, Hhint.
  eexists. split; [reflexivity|]. split; [reflexivity|].
  rewrite db_after, slack_after, after_threshold by reflexivity.
  repeat split.
Qed.

Lemma unhinted_fetch_error_ends_cycle_witness :
  exists w' : World,
    run env_player_unavailable (fetch_playback (_update_user 5) alice 1)
      (world_at 0 [alice])
    = (Returned Completed, w')
    /\ trace w' = [EvGetPlayer (spotifyAccessToken alice)].
Proof.
  destruct (unhinted_fetch_error_ends_cycle env_player_unavailable
              (_update_user 5) alice 1 (world_at 0 [alice]) no_error_body)
    as (w' & Hrun & Htrace & _); [reflexivity | reflexivity |].
  exists w'. split; assumption.
Defined.



(** X11: after a successful refresh the playback is fetched with the
    access token the provider has just issued, right after the update of
    the row. *)
Theorem refreshed_token_is_used_for_fetch
    (env : Env) (fuel : nat) (u : User) (a : Z) (w : World)
    (exchange_data : TokenExchangeData) :
  let w1 := after_gate env w in
  let token := spotifyRefreshToken u in
  let w2 := after env (GetNewAccessToken token REFRESH_TOKEN) w1 in
  spotify_token_expired u (clock w1) = true ->
  token <> [] ->
  env_get_new_access_token env (tick w1) token = inr exchange_data ->
  exists later : list Event,
    trace (snd (run env (_update_user (S fuel) u a) w))
    = later ++ EvGetPlayer (access_token exchange_data)
        :: EvUpdate (id u) (refreshed_fields exchange_data (clock w2))
        :: EvGetNewAccessToken token :: trace w1.
Proof.
  intros w1 token w2 Hexpired Htoken Hreply.
  rewrite run_update_user_S. cbv zeta. fold w1. fold token.
  rewrite Hexpired. cbn [andb].
  destruct (truthy token) eqn:Ht; [|apply truthy_false in Ht; contradiction].
  cbn [negb]. rewrite run_update_spotify_tokens. cbv zeta.
  fold token. rewrite Hreply. fold w2.
  unfold fetch_playback. cbn [mbind Prog_bind bind perform run].
  cbn [handle].
  match goal with
  | |- context [run env ?p ?w0] =>
      destruct (run_trace env p w0) as [later Hlater]
  end.
  exists later. rewrite Hlater. reflexivity.
Qed.

Lemma refreshed_token_is_used_for_fetch_witness :
  exists later : list Event,
    trace (snd (run env_refresh_without_token (_update_user 1 alice 1)
                  (world_at (seconds 4000) [alice])))
    = later ++ EvGetPlayer (str "access-new")
        :: EvUpdate (id alice)
             (refreshed_fields exchange_without_refresh_token (seconds 4000))
        :: [EvGetNewAccessToken (str "refresh-1")].
Proof.
  apply (refreshed_token_is_used_for_fetch env_refresh_without_token 0 alice 1
           (world_at (seconds 4000) [alice]) exchange_without_refresh_token);
    [reflexivity | discriminate | reflexivity].
Defined.

Lemma writes_set_threshold t w : writes (set_threshold t w) = writes w.
Proof. reflexivity. Qed.

Lemma writes_penalty w : writes (status_penalty w) = writes w.
Proof. reflexivity. Qed.

Ltac count_writes :=
  cbn [snd];
  rewrite ?writes_penalty, ?writes_set_threshold, ?writes_after;
  cbn [is_SetStatus]; lia.

Lemma set_user_status_writes_le env u args b w :
  (writes (snd (run env (_set_user_status u args b) w)) <= S (writes w))%nat.
Proof.
  rewrite run_set_user_status. cbv zeta.
  destruct (env_get_status env _ _ _) as [err|cp]; [count_writes|].
  destruct (getattr cp _) as [p|]; [|count_writes].
  destruct (getattr p _) as [text|]; [|count_writes].
  destruct (py_eq_str text _); [count_writes|].
  destruct (env_set_status env _ _ _) as [err|d]; [count_writes|].
  destruct (negb (ok d)); [destruct (in_set _ _)|]; count_writes.
Qed.

Lemma reconcile_writes_le env u player w :
  (writes (snd (run env (reconcile u player) w)) <= S (writes w))%nat.
Proof.
  rewrite run_reconcile.
  destruct (desired_status env u player) as [[args b]|]; [|count_writes].
  pose proof (set_user_status_writes_le env u args b w) as Hle.
  destruct (run env (_set_user_status u args b) w) as [[x|e] w2]; exact Hle.
Qed.

Lemma fetch_playback_writes_le env retry u a w :
  (forall u1 a1 w1,
     (writes (snd (run env (retry u1 a1) w1)) <= S (writes w1))%nat) ->
  (writes (snd (run env (fetch_playback retry u a) w)) <= S (writes w))%nat.
Proof.
  intros Hretry. rewrite run_fetch_playback. cbv zeta.
  destruct (env_get_player env _ _) as [err|player].
  - destruct (retry_after err) as [R|]; [|count_writes].
    destruct (signal_threshold _ R) as [threshold|]; [|count_writes].
    etransitivity; [apply Hretry|]. count_writes.
  - pose proof (reconcile_writes_le env u player
                  (after env (GetPlayer (spotifyAccessToken u)) w)) as Hle.
    rewrite writes_after in Hle. cbn [is_SetStatus] in Hle.
    destruct (run env (reconcile u player) _) as [[x|e] w2]; cbn [snd] in *;
      rewrite ?writes_after; cbn [is_SetStatus]; exact Hle.
Qed.

Lemma update_user_writes_le env fuel : forall u a w,
  (writes (snd (run env (_update_user fuel u a) w)) <= S (writes w))%nat.
Proof.
  induction fuel as [|fuel IH]; intros u a w; [cbn [_update_user run snd]; lia|].
  rewrite run_update_user_S. cbv zeta.
  pose proof (after_gate_writes env w) as Hgate.
  destruct (spotify_token_expired u _); cbn [andb].
  - destruct (negb _); [count_writes|].
    rewrite run_update_spotify_tokens. cbv zeta.
    destruct (env_get_new_access_token env _ _) as [err|ed].
    + destruct (in_set _ _); count_writes.
    + etransitivity; [apply fetch_playback_writes_le, IH|]. count_writes.
  - etransitivity; [apply fetch_playback_writes_le, IH|]. lia.
Qed.

(** X12: one call of [_update_user] issues at most one write to the
    platform, whatever the collaborators answer and however often the
    playback fetch is retried. *)
Theorem at_most_one_write_per_cycle
    (env : Env) (fuel : nat) (u : User) (a : Z) (w : World) :
  (writes (snd (run env (_update_user fuel u a) w)) <= S (writes w))%nat.
Proof. apply update_user_writes_le. Qed.

(** X13: a refresh that the provider answers without a refresh token
    leaves the user without one, so the first later cycle that finds the
    new access token expired deletes the user, without asking the
    provider or the platform anything. *)
Theorem lost_refresh_token_deletes_at_next_expiry
    (env : Env) (u : User) (w : World) (exchange_data : TokenExchangeData)
    (env' : Env) (fuel : nat) (a : Z) (w' : World) :
  env_get_new_access_token env (tick w) (spotifyRefreshToken u)
    = inr exchange_data ->
  refresh_token exchange_data = None ->
  exists (u1 : User) (w1 : World),
    run env (_update_spotify_tokens u) w = (Returned (true, u1), w1)
    /\ id u1 = id u
    /\ (spotify_token_expired u1 (clock (after_gate env' w')) = true ->
        let cycle := run env' (_update_user (S fuel) u1 a) w' in
        fst cycle = Returned Completed
        /\ db (snd cycle) !! id u = None
        /\ trace (snd cycle)
           = EvDelete (id u) :: trace (after_gate env' w')).
Proof.
  intros Hreply Hnone. rewrite run_update_spotify_tokens. cbv zeta.
  rewrite Hreply. eexists _, _. split; [reflexivity|].
  split; [apply apply_fields_id|].
  intros Hexpired.
  rewrite run_update_user_S. cbv zeta. rewrite Hexpired.
  assert (Hempty : spotifyRefreshToken
                     (apply_fields
                        (refreshed_fields exchange_data
                           (clock (after env
                                     (GetNewAccessToken (spotifyRefreshToken u)
                                        REFRESH_TOKEN) w))) u) = [])
    by (unfold refreshed_fields; rewrite Hnone; reflexivity).
  rewrite Hempty. cbn [truthy negb andb fst snd].
  rewrite apply_fields_id. split; [reflexivity|]. split; [|reflexivity].
  open_world. apply lookup_delete_eq.
Qed.

Lemma lost_refresh_token_deletes_at_next_expiry_witness :
  exists (u1 : User) (w1 : World),
    run env_refresh_without_token (_update_spotify_tokens alice)
      (world_at (seconds 4000) [alice]) = (Returned (true, u1), w1)
    /\ db (snd (run env_idle (_update_user 1 u1 1) (world_at (seconds 8000) [u1])))
         !! id alice = None.
Proof.
  destruct (lost_refresh_token_deletes_at_next_expiry
              env_refresh_without_token alice
              (world_at (seconds 4000) [alice]) exchange_without_refresh_token
              env_idle 0 1
              (world_at (seconds 8000)
                 [apply_fields
                    (refreshed_fields exchange_without_refresh_token
                       (seconds 4000)) alice]))
    as (u1 & w1 & Hrun & _ & Hdeleted); [reflexivity | reflexivity |].
  exists u1, w1. split; [exact Hrun|].
  rewrite run_update_spotify_tokens in Hrun. injection Hrun as <- _.
  apply Hdeleted. reflexivity.
Defined.

(** X14: no cycle ends before the time that the shared threshold held at
    its start: the wait at the gate comes first, and time does not go
    back. *)
Theorem cycle_never_ends_before_threshold
    (env : Env) (fuel : nat) (u : User) (a : Z) (w : World) :
  UPDATE_THRESHOLD w
    <= clock (snd (run env (_update_user (S fuel) u a) w)).
Proof.
  rewrite run_update_user_S. cbv zeta.
  destruct (above_gate env w) as [_ Hgate].
  destruct (spotify_token_expired u _); cbn [andb].
  - destruct (negb _).
    + cbn [snd].
      pose proof (after_clock env (UserDelete (id u)) (after_gate env w)). lia.
    + pose proof (run_clock env (_update_spotify_tokens u) (after_gate env w))
        as Hrefresh.
      destruct (run env (_update_spotify_tokens u) _) as [[[[] u2]|e] w2];
        cbn [snd] in *; try lia.
      pose proof (run_clock env (fetch_playback (_update_user fuel) u2 a) w2).
      lia.
  - pose proof (run_clock env (fetch_playback (_update_user fuel) u a)
                  (after_gate env w)). lia.
Qed.

Lemma run_fetch_playback_attempt env retry u a a' w :
  (forall u1 a1 a1' w1,
     run env (retry u1 a1) w1 = run env (retry u1 a1') w1) ->
  run env (fetch_playback retry u a) w = run env (fetch_playback retry u a') w.
Proof.
  intros Hretry. rewrite !run_fetch_playback. cbv zeta.
  destruct (env_get_player env _ _) as [err|player]; [|reflexivity].
  destruct (retry_after err) as [R|]; [|reflexivity].
  destruct (signal_threshold _ R); [apply Hretry | reflexivity].
Qed.

(** X15: the attempt counter has no effect on what a cycle does: two
    calls that differ in it alone return the same result in the same
    world.  It keeps count for the log and stops no retry. *)
Theorem attempt_only_labels_the_log
    (env : Env) (fuel : nat) (u : User) (a a' : Z) (w : World) :
  run env (_update_user fuel u a) w = run env (_update_user fuel u a') w.
Proof.
  revert u a a' w. induction fuel as [|fuel IH]; intros u a a' w;
    [reflexivity|].
  rewrite !run_update_user_S. cbv zeta.
  destruct (spotify_token_expired u _); cbn [andb].
  - destruct (negb _); [reflexivity|].
    destruct (run env (_update_spotify_tokens u) _) as [[[[] u2]|e] w2];
      try reflexivity.
    apply run_fetch_playback_attempt, IH.
  - apply run_fetch_playback_attempt, IH.
Qed.

Section Quiet.

Variable env : Env.

Hypothesis no_hint :
  forall n token err,
    env_get_player env n token = inl err -> retry_after err = None.
Hypothesis status_answered :
  forall n token text, exists v, env_get_status env n token text = inr v.
Hypothesis write_answered :
  forall n args token, exists d, env_set_status env n args token = inr d.

Lemma set_user_status_quiet u args b w :
  UPDATE_THRESHOLD (snd (run env (_set_user_status u args b) w))
    = UPDATE_THRESHOLD w.
Proof.
  rewrite run_set_user_status. cbv zeta.
  destruct (status_answered (tick w) (slackAccessToken u)
              (stored_status w (slackAccessToken u))) as [cp ->].
  destruct (getattr cp _) as [p|];
    [|cbn [snd]; apply after_threshold; reflexivity].
  destruct (getattr p _) as [text|];
    [|cbn [snd]; apply after_threshold; reflexivity].
  destruct (py_eq_str text _);
    [cbn [snd]; apply after_threshold; reflexivity|].
  match goal with |- context [env_set_status env ?n ?x ?t] =>
    destruct (write_answered n x t) as [d ->] end.
  destruct (negb (ok d)); [destruct (in_set _ _)|]; cbn [snd];
    rewrite !after_threshold by reflexivity; reflexivity.
Qed.

Lemma update_user_quiet fuel : forall u a w,
  UPDATE_THRESHOLD (snd (run env (_update_user fuel u a) w))
    = UPDATE_THRESHOLD w.
Proof.
  destruct fuel as [|fuel]; intros u a w; [reflexivity|].
  rewrite run_update_user_S. cbv zeta.
  assert (Hgate : UPDATE_THRESHOLD (after_gate env w) = UPDATE_THRESHOLD w).
  { unfold after_gate. destruct (0 <? _); [apply after_threshold|]; reflexivity. }
  assert (Hfetch : forall u1 w1,
            UPDATE_THRESHOLD
              (snd (run env (fetch_playback (_update_user fuel) u1 a) w1))
            = UPDATE_THRESHOLD w1).
  { intros u1 w1. rewrite run_fetch_playback. cbv zeta.
    destruct (env_get_player env _ _) as [err|player] eqn:Hreply.
    - rewrite (no_hint _ _ _ Hreply). cbn [snd].
      apply after_threshold. reflexivity.
    - rewrite run_reconcile.
      destruct (desired_status env u1 player) as [[args b]|].
      + pose proof (set_user_status_quiet u1 args b
                      (after env (GetPlayer (spotifyAccessToken u1)) w1))
          as Hset.
        rewrite after_threshold in Hset by reflexivity.
        destruct (run env (_set_user_status u1 args b) _) as [[x|e] w2];
          cbn [snd] in *; rewrite ?after_threshold by reflexivity;
          exact Hset.
      + cbn [snd]. rewrite !after_threshold by reflexivity. reflexivity. }
  destruct (spotify_token_expired u _); cbn [andb].
  - destruct (negb _);
      [cbn [snd]; rewrite after_threshold by reflexivity; exact Hgate|].
    rewrite run_update_spotify_tokens. cbv zeta.
    destruct (env_get_new_access_token env _ _) as [err|ed].
    + destruct (in_set _ _); cbn [snd];
        rewrite !after_threshold by reflexivity; exact Hgate.
    + rewrite Hfetch, !after_threshold by reflexivity. exact Hgate.
  - rewrite Hfetch. exact Hgate.
Qed.

End Quiet.

(** X16: the shared threshold moves on rate-limit hints and on transport
    errors of the platform only: while the playback fetch gives no
    retry-after hint and the platform answers its calls, a cycle leaves
    the threshold as it was, also when the refresh fails, the write is
    rejected or the user is deleted. *)
Theorem threshold_moves_only_on_signals
    (env : Env) (fuel : nat) (u : User) (a : Z) (w : World) :
  (forall n token err,
     env_get_player env n token = inl err -> retry_after err = None) ->
  (forall n token text, exists v, env_get_status env n token text = inr v) ->
  (forall n args token, exists d, env_set_status env n args token = inr d) ->
  UPDATE_THRESHOLD (snd (run env (_update_user fuel u a) w))
    = UPDATE_THRESHOLD w.
Proof.
  intros Hplayer Hstatus Hwrite.
  apply (update_user_quiet env Hplayer Hstatus Hwrite).
Qed.

Lemma threshold_moves_only_on_signals_witness :
  UPDATE_THRESHOLD
    (snd (run env_write_rejected (_update_user 1 alice 1) (world_at 0 [alice])))
  = UPDATE_THRESHOLD (world_at 0 [alice]).
Proof.
  apply (threshold_moves_only_on_signals env_write_rejected 1 alice 1
           (world_at 0 [alice])).
  - intros n token err. discriminate.
  - intros n token text. eexists. reflexivity.
  - intros n args token. eexists. reflexivity.
Defined.
